(** * googkit: command tree resolution and dispatch

    A shallow embedding of [lib/command_tree.py], [googkit/__init__.py] and
    [googkit/commands/init.py], with the properties of the command
    resolution and execution engine stated over it. *)

From Stdlib Require Import String Ascii ZArith.
From stdpp Require Import base option list strings gmap sorting.

Local Open Scope string_scope.
Local Open Scope list_scope.
Local Open Scope nat_scope.
Set Warnings "-register-all".

(** ** Python results *)

(** The exceptions that the embedded functions can raise. *)
Inductive exn : Type :=
| GoogkitError (msg : string)
| AttributeError
| IndexError
| OtherError (name : string).

Global Instance exn_eq_dec : EqDecision exn.
Proof. solve_decision. Defined.

(** A call either returns a value or raises. *)
Inductive result (A : Type) : Type :=
| Ok (a : A)
| Raise (e : exn).
Arguments Ok {A} a.
Arguments Raise {A} e.

(** ** Control flow of a loop body

    A statement transforms the local variables [S] and says how control
    leaves it: falling through to the next statement, [continue], [break],
    [return r], or a raised exception (with the variables as they
    were when it was raised). *)
Module Flow.

Inductive flow (S R : Type) : Type :=
| Next (s : S)
| Continue (s : S)
| Break (s : S)
| Return (r : R)
| Throw (e : exn) (s : S).
Arguments Next {S R} s.
Arguments Continue {S R} s.
Arguments Break {S R} s.
Arguments Return {S R} r.
Arguments Throw {S R} e s.

Definition stmt (S R : Type) : Type := S → flow S R.

(** [a ;;; b]: run [b] only when [a] falls through. *)
Definition chain {S R} (a b : stmt S R) : stmt S R :=
  λ s, match a s with
       | Next s' => b s'
       | Continue s' => Continue s'
       | Break s' => Break s'
       | Return r => Return r
       | Throw e s' => Throw e s'
       end.

(** [if c: a] with no else branch. *)
Definition when {S R} (c : S → bool) (a : stmt S R) : stmt S R :=
  λ s, if c s then a s else Next s.

Definition assign {S R} (f : S → S) : stmt S R := λ s, Next (f s).
Definition continue_ {S R} : stmt S R := λ s, Continue s.
Definition break_ {S R} : stmt S R := λ s, Break s.
Definition return_ {S R} (r : S → R) : stmt S R := λ s, Return (r s).

(** [for x in xs: body x]; the loop ends normally with the variables it
    leaves behind, or is left by [return] or an exception. *)
Fixpoint for_each {A S R} (body : A → stmt S R) (xs : list A) : stmt S R :=
  λ s, match xs with
       | [] => Next s
       | x :: xs' =>
           match body x s with
           | Next s' | Continue s' => for_each body xs' s'
           | Break s' => Next s'
           | Return r => Return r
           | Throw e s' => Throw e s'
           end
       end.

(** A function body: what it returns once its last statement is a
    [return]. *)
Definition call {S R} (body : stmt S R) (s : S) : result R :=
  match body s with
  | Return r => Ok r
  | Throw e _ => Raise e
  | Next _ | Continue _ | Break _ => Raise (OtherError "no return")
  end.

(** The variables a loop or statement leaves behind. *)
Definition flow_state {S R} (f : flow S R) : option S :=
  match f with
  | Next s | Continue s | Break s | Throw _ s => Some s
  | Return _ => None
  end.

End Flow.
Import Flow.

Notation "a ;;; b" := (chain a b) (at level 100, b at level 200, right associativity).

(** ** The command tree *)

(** A node of [CommandTree._tree]: a list of command classes (a leaf) or a
    nested dict (a branch). *)
Inductive node (C : Type) : Type :=
| Leaf (classes : list C)
| Branch (children : gmap string (node C)).
Arguments Leaf {C} classes.
Arguments Branch {C} children.

(** The command classes named in [DEFAULT_TREE]. *)
Inductive command_id : Type :=
| CommandsCommand
| BuildCommand
| ApplyConfigCommand
| UpdateDepsCommand
| InitCommand
| SetupCommand
| DownloadCommand.

Global Instance command_id_eq_dec : EqDecision command_id.
Proof. solve_decision. Defined.

Definition DEFAULT_TREE : gmap string (node command_id) :=
  <["_commands" := Leaf [CommandsCommand]]>
  (<["build" := Leaf [BuildCommand]]>
  (<["config" := Branch {["apply" := Leaf [ApplyConfigCommand; UpdateDepsCommand]]}]>
  (<["deps" := Branch {["update" := Leaf [UpdateDepsCommand]]}]>
  (<["init" := Leaf [InitCommand]]>
  (<["ready" := Leaf [ApplyConfigCommand; UpdateDepsCommand]]>
  (<["setup" := Leaf [SetupCommand; UpdateDepsCommand]]> ∅)))))).

Section CommandTree.
Context {C : Type}.

Abbreviation tree := (gmap string (node C)).

(** A Python variable that holds [None], a list or a dict. *)
Abbreviation pyval := (option (node C)).

(** [v.get(k)]: only a dict has [get]. *)
Definition py_get (v : pyval) (k : string) : result pyval :=
  match v with
  | Some (Branch d) => Ok (d !! k)
  | Some (Leaf _) | None => Raise AttributeError
  end.

Definition is_list (v : pyval) : bool :=
  match v with Some (Leaf _) => true | _ => false end.

Definition is_dict (v : pyval) : bool :=
  match v with Some (Branch _) => true | _ => false end.

Definition is_none (v : pyval) : bool :=
  match v with None => true | _ => false end.

(** The list held by a variable known to hold one. *)
Definition as_list (v : pyval) : option (list C) :=
  match v with Some (Leaf l) => Some l | _ => None end.

(** [x = v.get(k)] as a statement. *)
Definition get_into {S R} (src : S → pyval) (k : string)
    (store : pyval → S → S) : stmt S R :=
  λ s, match py_get (src s) k with
       | Ok v => Next (store v s)
       | Raise e => Throw e s
       end.

(** *** [right_commands] *)

Record rc_vars : Type := RcVars {
  rc_command_dict : pyval;
  rc_result : list string;
  rc_next_dict : pyval
}.

Definition rc_body (arg : string) : stmt rc_vars (list string) :=
  get_into rc_command_dict arg
    (λ v s, RcVars (rc_command_dict s) (rc_result s) v) ;;;
  when (λ s, is_none (rc_next_dict s)) break_ ;;;
  assign (λ s, RcVars (rc_command_dict s) (rc_result s ++ [arg]) (rc_next_dict s)) ;;;
  when (λ s, negb (is_dict (rc_next_dict s))) break_ ;;;
  assign (λ s, RcVars (rc_next_dict s) (rc_result s) (rc_next_dict s)).

Definition right_commands (t : tree) (args : list string) : result (list string) :=
  call (for_each rc_body args ;;; return_ rc_result)
       (RcVars (Some (Branch t)) [] None).

(** *** [is_internal_command] and [available_commands] *)

(** [name[0] == '_']; indexing the empty string raises. *)
Definition is_internal_command (name : string) : result bool :=
  match name with
  | EmptyString => Raise IndexError
  | String c _ => Ok (Ascii.eqb c "_"%char)
  end.

(** [[cmd for cmd in commands if not is_internal_command(cmd)]] *)
Fixpoint public_commands (commands : list string) : result (list string) :=
  match commands with
  | [] => Ok []
  | cmd :: rest =>
      match is_internal_command cmd with
      | Raise e => Raise e
      | Ok internal =>
          match public_commands rest with
          | Raise e => Raise e
          | Ok rest' => Ok (if internal then rest' else cmd :: rest')
          end
      end
  end.

(** Python compares [str] by code points; on the bytes of a string this is
    [String.leb]. *)
Definition str_le : relation string := λ a b, String.leb a b = true.

Global Instance str_le_dec : RelDecision str_le.
Proof. intros a b. unfold str_le. apply _. Defined.

Definition sorted (l : list string) : list string := merge_sort str_le l.

(** [d.keys()] *)
Definition keys (d : tree) : list string := (map_to_list d).*1.

Record ac_vars : Type := AcVars {
  ac_command_dict : pyval;
  ac_next_dict : pyval
}.

Definition ac_body (arg : string) : stmt ac_vars (list string) :=
  get_into ac_command_dict arg (λ v s, AcVars (ac_command_dict s) v) ;;;
  when (λ s, is_none (ac_next_dict s)) (return_ (λ _, [])) ;;;
  assign (λ s, AcVars (ac_next_dict s) (ac_next_dict s)).

Definition ac_listing : stmt ac_vars (list string) :=
  λ s, match ac_command_dict s with
       | Some (Branch d) =>
           match public_commands (keys d) with
           | Ok l => Return (sorted l)
           | Raise e => Throw e s
           end
       | Some (Leaf _) | None => Throw AttributeError s
       end.

Definition available_commands (t : tree) (args : list string) : result (list string) :=
  call (for_each ac_body args ;;;
        when (λ s, negb (is_dict (ac_command_dict s))) (return_ (λ _, [])) ;;;
        ac_listing)
       (AcVars (Some (Branch t)) None).

(** *** [command_classes] *)

Record cc_vars : Type := CcVars {
  cc_value : pyval;
  cc_last_value : option (list C);
  cc_next_value : pyval
}.

Definition cc_set_value (v : pyval) (s : cc_vars) : cc_vars :=
  CcVars v (cc_last_value s) (cc_next_value s).
Definition cc_set_last_value (l : option (list C)) (s : cc_vars) : cc_vars :=
  CcVars (cc_value s) l (cc_next_value s).
Definition cc_set_next_value (v : pyval) (s : cc_vars) : cc_vars :=
  CcVars (cc_value s) (cc_last_value s) v.

(** The statements of the loop body up to and including the
    unconditional [return None]. *)
Definition cc_body_live (arg : string) : stmt cc_vars (option (list C)) :=
  when (λ s, bool_decide (cc_last_value s ≠ None)) (return_ (λ _, None)) ;;;
  get_into cc_value arg cc_set_next_value ;;;
  when (λ s, is_list (cc_next_value s))
    (assign (λ s, cc_set_last_value (as_list (cc_next_value s)) s) ;;; continue_) ;;;
  when (λ s, is_dict (cc_next_value s))
    (assign (λ s, cc_set_value (cc_next_value s) s) ;;; continue_) ;;;
  return_ (λ _, None).

(** The statements that follow that [return None] in the source. *)
Definition cc_body_tail : stmt cc_vars (option (list C)) :=
  when (λ s, is_list (cc_next_value s)) (return_ (λ s, as_list (cc_next_value s))) ;;;
  assign (λ s, cc_set_value (cc_next_value s) s).

(** The loop body as written. *)
Definition cc_body (arg : string) : stmt cc_vars (option (list C)) :=
  when (λ s, bool_decide (cc_last_value s ≠ None)) (return_ (λ _, None)) ;;;
  get_into cc_value arg cc_set_next_value ;;;
  when (λ s, is_list (cc_next_value s))
    (assign (λ s, cc_set_last_value (as_list (cc_next_value s)) s) ;;; continue_) ;;;
  when (λ s, is_dict (cc_next_value s))
    (assign (λ s, cc_set_value (cc_next_value s) s) ;;; continue_) ;;;
  return_ (λ _, None) ;;;
  cc_body_tail.

Definition command_classes (t : tree) (args : list string) : result (option (list C)) :=
  call (for_each cc_body args ;;; return_ cc_last_value)
       (CcVars (Some (Branch t)) None None).

(** [command_classes] without the statements after the unconditional
    [return None]. *)
Definition command_classes_live (t : tree) (args : list string)
    : result (option (list C)) :=
  call (for_each cc_body_live args ;;; return_ cc_last_value)
       (CcVars (Some (Branch t)) None None).

(** *** [register]

    Every dict the loop descends into is the [{}] it has just stored, so
    the only dicts written are the instance's own root dict and fresh
    ones; no dict shared with [DEFAULT_TREE] is mutated.  The update is
    therefore the rebuilding of the root around a fresh chain. *)
Fixpoint register_path (init : list string) (final : string)
    (commands : list C) (command_dict : tree) : tree :=
  match init with
  | [] => <[final := Leaf commands]> command_dict
  | name :: init' =>
      <[name := Branch (register_path init' final commands ∅)]> command_dict
  end.

(** [names[:-1]] is empty for empty [names], and [names[-1]] then raises
    before anything was written. *)
Definition register (t : tree) (names : list string) (commands : list C)
    : result tree :=
  match last names with
  | None => Raise IndexError
  | Some final => Ok (register_path (removelast names) final commands t)
  end.


(** *** Paths of the tree *)

(** The node a token path leads to, descending through dicts only; a list
    can only be the end of a path. *)
Fixpoint lookup_path (d : tree) (p : list string) : option (node C) :=
  match p with
  | [] => Some (Branch d)
  | k :: p' =>
      match d !! k with
      | Some (Branch d') => lookup_path d' p'
      | Some (Leaf l) => match p' with [] => Some (Leaf l) | _ :: _ => None end
      | None => None
      end
  end.

(** What the resolution walk of [command_classes] computes. *)
Fixpoint walk (d : tree) (args : list string) : option (list C) :=
  match args with
  | [] => None
  | arg :: rest =>
      match d !! arg with
      | Some (Leaf l) => match rest with [] => Some l | _ :: _ => None end
      | Some (Branch d') => walk d' rest
      | None => None
      end
  end.

(** What the walk of [right_commands] collects. *)
Fixpoint resolved (d : tree) (args : list string) : list string :=
  match args with
  | [] => []
  | arg :: rest =>
      match d !! arg with
      | None => []
      | Some (Leaf _) => [arg]
      | Some (Branch d') => arg :: resolved d' rest
      end
  end.

(** What the walk of [available_commands] computes. *)
Fixpoint listing (d : tree) (args : list string) : result (list string) :=
  match args with
  | [] =>
      match public_commands (keys d) with
      | Ok l => Ok (sorted l)
      | Raise e => Raise e
      end
  | arg :: rest =>
      match d !! arg with
      | None => Ok []
      | Some (Branch d') => listing d' rest
      | Some (Leaf _) =>
          match rest with [] => Ok [] | _ :: _ => Raise AttributeError end
      end
  end.

(** A name with a leading underscore. *)
Definition internal_name (name : string) : bool :=
  match name with
  | String c _ => Ascii.eqb c "_"%char
  | EmptyString => false
  end.

(** The names listed below the longest resolved prefix. *)
Definition next_level_names (t : tree) (prefix names : list string) : Prop :=
  match lookup_path t prefix with
  | Some (Branch d) =>
      Sorted str_le names ∧ NoDup names
      ∧ ∀ k, k ∈ names ↔ is_Some (d !! k) ∧ internal_name k = false
  | Some (Leaf _) => names = []
  | None => False
  end.

End CommandTree.

(** ** The execution environment *)

(** [Environment(cwd, argument, tree, config)].  [env_id] stands for the
    identity of the object: two environments are the same object exactly
    when their [env_id]s agree. *)
Record Environment (A T Cfg : Type) : Type := MkEnvironment {
  env_id : nat;
  env_cwd : string;
  env_argument : A;
  env_tree : T;
  env_config : option Cfg
}.
Arguments MkEnvironment {A T Cfg} _ _ _ _ _.
Arguments env_id {A T Cfg} _.
Arguments env_cwd {A T Cfg} _.
Arguments env_argument {A T Cfg} _.
Arguments env_tree {A T Cfg} _.
Arguments env_config {A T Cfg} _.

Definition is_absent {X} (o : option X) : bool :=
  match o with None => true | Some _ => false end.

(** ** Commands *)

(** What a run of commands leaves in its log. *)
Inductive command_event : Type :=
| Instantiated (name : string) (env : nat)
| RunInternal (name : string) (env : nat).

Global Instance command_event_eq_dec : EqDecision command_event.
Proof. solve_decision. Defined.

Definition event_env (ev : command_event) : nat :=
  match ev with Instantiated _ e | RunInternal _ e => e end.

Section Command.
Context {A T Cfg W : Type}.

(** The message of the error raised for a missing config. *)
Variable config_required_message : string.

Abbreviation Env := (Environment A T Cfg).

(** Modelled from the spec: the command classes of sections 4.3 and 4.4
    ([googkit/commands/command.py] and [googkit/commands/sequence.py] are
    not among the sources).  A class declares [needs_config] and is either
    a plain command with its own [run_internal] work on the outside world,
    or a sequence command with its ordered member classes. *)
Inductive command_class : Type :=
| PlainCommand (name : string) (needs : bool)
    (work : Env → W → result unit * W)
| SequenceCommand (name : string) (needs : bool)
    (members : list command_class).

Definition class_name (c : command_class) : string :=
  match c with PlainCommand n _ _ | SequenceCommand n _ _ => n end.

Definition class_needs_config (c : command_class) : bool :=
  match c with PlainCommand _ b _ | SequenceCommand _ b _ => b end.

(** The outside world together with the log of what the commands did. *)
Record cmd_state : Type := CmdState {
  cs_world : W;
  cs_log : list command_event
}.

Definition log_event (ev : command_event) (s : cmd_state) : cmd_state :=
  CmdState (cs_world s) (cs_log s ++ [ev]).

(** Modelled from the spec: the ConfigRequired error of section 7, a
    GoogkitError ([googkit/lib/error.py] and [command.py] are missing). *)
Definition ConfigRequired : exn := GoogkitError config_required_message.

(** Modelled from the spec: [Command.run] of section 4.3 and
    [SequenceCommand.run_internal] of section 4.4
    ([googkit/commands/command.py] and [sequence.py] are missing).
    [run] fails with ConfigRequired when the class needs a config and the
    environment has none, and otherwise delegates to [run_internal]; a
    sequence command's [run_internal] constructs each member with its own
    environment and runs it, stopping at the first failure. *)
Fixpoint run (c : command_class) (env : Env) (s : cmd_state) {struct c}
    : result unit * cmd_state :=
  if class_needs_config c && is_absent (env_config env)
  then (Raise ConfigRequired, s)
  else
    let s := log_event (RunInternal (class_name c) (env_id env)) s in
    match c with
    | PlainCommand _ _ work =>
        let '(r, w) := work env (cs_world s) in (r, CmdState w (cs_log s))
    | SequenceCommand _ _ members =>
        (fix run_each (ms : list command_class) (s : cmd_state) :=
           match ms with
           | [] => (Ok (), s)
           | m :: ms' =>
               match run m env (log_event (Instantiated (class_name m) (env_id env)) s) with
               | (Ok _, s') => run_each ms' s'
               | (Raise e, s') => (Raise e, s')
               end
           end) members s
    end.

(** Modelled from the spec: the member loop of
    [SequenceCommand.run_internal] (section 4.4; [sequence.py] is
    missing). *)
Fixpoint run_members (ms : list command_class) (env : Env) (s : cmd_state)
    : result unit * cmd_state :=
  match ms with
  | [] => (Ok (), s)
  | m :: ms' =>
      match run m env (log_event (Instantiated (class_name m) (env_id env)) s) with
      | (Ok _, s') => run_members ms' env s'
      | (Raise e, s') => (Raise e, s')
      end
  end.

(** Modelled from the spec: [run_internal] of sections 4.3 and 4.4, the
    command-specific work ([command.py] and [sequence.py] are missing). *)
Definition run_internal (c : command_class) (env : Env) (s : cmd_state)
    : result unit * cmd_state :=
  let s := log_event (RunInternal (class_name c) (env_id env)) s in
  match c with
  | PlainCommand _ _ work =>
      let '(r, w) := work env (cs_world s) in (r, CmdState w (cs_log s))
  | SequenceCommand _ _ members => run_members members env s
  end.

(** Everything a command logs carries the identity of the environment it
    was given. *)
Definition logs_with (env : Env) (s s' : cmd_state) : Prop :=
  ∃ evs, cs_log s' = cs_log s ++ evs
         ∧ Forall (λ ev, event_env ev = env_id env) evs.

End Command.

(** ** The dispatcher: [googkit/__init__.py] *)

Definition VERSION : string := "0.0.0".

(** How the process ends. *)
Inductive termination : Type :=
| Returned
| SysExit (status : nat)
| Uncaught (e : exn).

(** The exit status seen by the caller of the process; an uncaught
    exception ends the interpreter with status 1. *)
Definition exit_status (t : termination) : nat :=
  match t with
  | Returned => 0
  | SysExit n => n
  | Uncaught _ => 1
  end.

(** What [main] does that the properties speak about. *)
Inductive event (C : Type) : Type :=
| LoadConfig
| NewEnvironment (id : nat) (with_config : bool)
| Construct (cls : C) (env : nat)
| Run (cls : C) (env : nat).
Arguments LoadConfig {C}.
Arguments NewEnvironment {C} id with_config.
Arguments Construct {C} cls env.
Arguments Run {C} cls env.

(** The process: the outside world, what was printed, what was logged at
    error severity, the events so far, and the identity the next
    [Environment] object will get. *)
Record process (C W : Type) : Type := Process {
  world : W;
  stdout : list string;
  errlog : list string;
  trace : list (event C);
  next_env : nat
}.
Arguments Process {C W} _ _ _ _ _.
Arguments world {C W} _.
Arguments stdout {C W} _.
Arguments errlog {C W} _.
Arguments trace {C W} _.
Arguments next_env {C W} _.

(** What [main] calls that is not part of this model: the command
    classes ([cls.needs_config()], [cls(env).run()]),
    [googkit.lib.path.project_root], [os.chdir], the three config
    locations with [Config.load], and the parsed arguments
    ([parser.commands], [parser.option(name)]). *)
Record collaborators (C A Cfg W : Type) : Type := Collaborators {
  needs_config : C → bool;
  run_command : C → Environment A (gmap string (node C)) Cfg → W → result unit * W;
  project_root : string → W → result string;
  chdir : string → W → result W;
  default_config : W → result string;
  user_config : W → result string;
  project_config : string → W → result string;
  config_load : string → string → string → W → result Cfg;
  parser_commands : A → list string;
  parser_option : A → string → bool
}.
Arguments Collaborators {C A Cfg W} _ _ _ _ _ _ _ _ _ _.
Arguments needs_config {C A Cfg W} _ _.
Arguments run_command {C A Cfg W} _ _ _ _.
Arguments project_root {C A Cfg W} _ _ _.
Arguments chdir {C A Cfg W} _ _ _.
Arguments default_config {C A Cfg W} _ _.
Arguments user_config {C A Cfg W} _ _.
Arguments project_config {C A Cfg W} _ _ _.
Arguments config_load {C A Cfg W} _ _ _ _ _.
Arguments parser_commands {C A Cfg W} _ _.
Arguments parser_option {C A Cfg W} _ _ _.

(** The identities of the environments constructed, the identities of
    the environments the command instances were given, and the number of
    times the configuration was loaded, in a run of events. *)
Definition environment_ids {C} (T : list (event C)) : list nat :=
  omap (λ ev, match ev with NewEnvironment id _ => Some id | _ => None end) T.

Definition instance_environments {C} (T : list (event C)) : list nat :=
  omap (λ ev, match ev with Construct _ env => Some env | _ => None end) T.

Definition loads {C} (T : list (event C)) : nat :=
  length (omap (λ ev, match ev with LoadConfig => Some () | _ => None end) T).

(** The events of the turns of the loop for [classes], when the next
    environment gets the identity [id] and the configuration is [loaded]
    already or not: the load before the first class that needs it, and
    for each class its environment (with the configuration when it is
    loaded by then), its construction and its run, in this order. *)
Fixpoint turns {C} (needs : C → bool) (id : nat) (loaded : bool)
    (classes : list C) : list (event C) :=
  match classes with
  | [] => []
  | cls :: rest =>
      (if negb loaded && needs cls then [LoadConfig] else [])
      ++ [NewEnvironment id (loaded || needs cls); Construct cls id; Run cls id]
      ++ turns needs (S id) (loaded || needs cls) rest
  end.

(** One environment, constructed once and given to every instance. *)
Definition single_shared_environment {C} (T : list (event C)) : Prop :=
  ∃ id, environment_ids T = [id] ∧ Forall (λ env, env = id) (instance_environments T).

Section Dispatcher.
Context {C A Cfg W : Type}.
Variable X : collaborators C A Cfg W.

Abbreviation tree := (gmap string (node C)).
Abbreviation Env := (Environment A tree Cfg).
Abbreviation proc := (process C W).

Definition set_world (w : W) (p : proc) : proc :=
  Process w (stdout p) (errlog p) (trace p) (next_env p).

Definition print (line : string) (p : proc) : proc :=
  Process (world p) (stdout p ++ [line]) (errlog p) (trace p) (next_env p).

(** [logging.error(msg)] *)
Definition logging_error (msg : string) (p : proc) : proc :=
  Process (world p) (stdout p) (errlog p ++ [msg]) (trace p) (next_env p).

Definition record_event (ev : event C) (p : proc) : proc :=
  Process (world p) (stdout p) (errlog p) (trace p ++ [ev]) (next_env p).

(** [Environment(cwd, parser, tree, config)]: a new object. *)
Definition new_environment (cwd : string) (parser : A) (t : tree)
    (config : option Cfg) (p : proc) : Env * proc :=
  (MkEnvironment (next_env p) cwd parser t config,
   Process (world p) (stdout p) (errlog p)
           (trace p ++ [NewEnvironment (next_env p) (negb (is_absent config))])
           (S (next_env p))).

Definition usage_line (right_cmds : list string) : string :=
  if decide (length right_cmds = 0) then "Usage: googkit <command>"
  else "Usage: googkit " +:+ String.concat " " right_cmds +:+ " <command>".

Definition print_names (names : list string) (p : proc) : proc :=
  foldl (λ p name, print ("    " +:+ name) p) p names.

Definition print_help (t : tree) (commands : list string) (p : proc)
    : result unit * proc :=
  match right_commands t commands with
  | Raise e => (Raise e, p)
  | Ok right_cmds =>
      let p := print (usage_line right_cmds) p in
      let p := print "" p in
      let p := print "Available commands:" p in
      match available_commands t right_cmds with
      | Raise e => (Raise e, p)
      | Ok names => (Ok (), print_names names p)
      end
  end.

Definition print_version (p : proc) : proc := print ("googkit " +:+ VERSION) p.

Definition find_config (cwd : string) (w : W) : result Cfg :=
  match default_config X w with
  | Raise e => Raise e
  | Ok dc =>
      match user_config X w with
      | Raise e => Raise e
      | Ok uc =>
          match project_config X cwd w with
          | Raise e => Raise e
          | Ok pc => config_load X pc uc dc w
          end
      end
  end.

(** The variables of the loop of [main]. *)
Record main_vars : Type := MainVars {
  mv_config : option Cfg;
  mv_proc : proc
}.

(** [os.chdir(project_root(cwd)); config = find_config(cwd)] *)
Definition load_config (cwd : string) : stmt main_vars unit :=
  λ s,
    let p := record_event LoadConfig (mv_proc s) in
    match project_root X cwd (world p) with
    | Raise e => Throw e (MainVars (mv_config s) p)
    | Ok root =>
        match chdir X root (world p) with
        | Raise e => Throw e (MainVars (mv_config s) p)
        | Ok w =>
            match find_config cwd w with
            | Raise e => Throw e (MainVars (mv_config s) (set_world w p))
            | Ok config => Next (MainVars (Some config) (set_world w p))
            end
        end
    end.

(** [env = Environment(...); command = cls(env); command.run()] *)
Definition construct_and_run (cwd : string) (parser : A) (t : tree) (cls : C)
    : stmt main_vars unit :=
  λ s,
    let '(env, p) := new_environment cwd parser t (mv_config s) (mv_proc s) in
    let p := record_event (Construct cls (env_id env)) p in
    let p := record_event (Run cls (env_id env)) p in
    match run_command X cls env (world p) with
    | (Ok _, w) => Next (MainVars (mv_config s) (set_world w p))
    | (Raise e, w) => Throw e (MainVars (mv_config s) (set_world w p))
    end.

Definition main_body (cwd : string) (parser : A) (t : tree) (cls : C)
    : stmt main_vars unit :=
  when (λ s, is_absent (mv_config s) && needs_config X cls) (load_config cwd) ;;;
  construct_and_run cwd parser t cls.

(** The [try] block of [main]. *)
Definition run_classes (cwd : string) (parser : A) (t : tree)
    (classes : list C) (p : proc) : flow main_vars unit :=
  for_each (main_body cwd parser t) classes (MainVars None p).

(** [main], after the tree was built and the arguments parsed. *)
Definition main (t : tree) (parser : A) (cwd : string) (p : proc)
    : termination * proc :=
  let commands := parser_commands X parser in
  if bool_decide (length commands = 0) && parser_option X parser "--version"
  then (SysExit 0, print_version p)
  else
    match command_classes t commands with
    | Raise e => (Uncaught e, p)
    | Ok None =>
        match print_help t commands p with
        | (Raise e, p') => (Uncaught e, p')
        | (Ok _, p') => (SysExit 0, p')
        end
    | Ok (Some classes) =>
        match run_classes cwd parser t classes p with
        | Throw (GoogkitError msg) s =>
            (SysExit 1, logging_error ("[Error] " +:+ msg) (mv_proc s))
        | Throw e s => (Uncaught e, mv_proc s)
        | Next s | Continue s | Break s => (Returned, mv_proc s)
        | Return _ => (Returned, p)
        end
    end.

(** What a stretch [T] of events between the loop states [s] and [s']
    looks like. *)
Record traced (s s' : main_vars) (T : list (event C)) : Prop := Traced {
  tr_trace : trace (mv_proc s') = trace (mv_proc s) ++ T;
  tr_envs : environment_ids T
            = seq (next_env (mv_proc s)) (length (environment_ids T));
  tr_next : next_env (mv_proc s')
            = next_env (mv_proc s) + length (environment_ids T);
  tr_inst : instance_environments T = environment_ids T;
  tr_loads : loads T ≤ (if is_absent (mv_config s) then 1 else 0);
  tr_kept : is_absent (mv_config s) = false → is_absent (mv_config s') = false;
  tr_lazy : loads T = 0 → mv_config s' = mv_config s
}.

End Dispatcher.

(** ** [InitCommand.copy_template]: [googkit/commands/init.py] *)

Section Init.
Context {FS : Type}.

(** [googkit.lib.path.template()] *)
Variable template : string.
(** [os.listdir] and [distutils.dir_util.copy_tree] *)
Variable listdir : string → FS → result (list string).
Variable copy_tree : string → string → FS → result unit * FS.

Definition conflicted_entries (dst_entries template_entries : list string)
    : gset string :=
  list_to_set dst_entries ∩ list_to_set template_entries.

Definition copy_template (dst_dir : string) (fs : FS) : result unit * FS :=
  let template_dir := template in
  match listdir dst_dir fs with
  | Raise e => (Raise e, fs)
  | Ok dst_entries =>
      match listdir template_dir fs with
      | Raise e => (Raise e, fs)
      | Ok template_entries =>
          let conflicted := conflicted_entries dst_entries template_entries in
          if decide (conflicted ≠ ∅)
          then (Raise (GoogkitError
                  ("Conflicted files: " +:+ String.concat ", " (elements conflicted))),
                fs)
          else copy_tree template_dir dst_dir fs
      end
  end.

End Init.
(** ** Example instances *)

(** [SetupCommand._internal_commands()]: [googkit/commands/setup.py] *)
Definition SetupCommand_internal_commands : list command_id :=
  [DownloadCommand; UpdateDepsCommand; ApplyConfigCommand].

Definition class_label (cls : command_id) : string :=
  match cls with
  | CommandsCommand => "commands"
  | BuildCommand => "build"
  | ApplyConfigCommand => "apply_config"
  | UpdateDepsCommand => "update_deps"
  | InitCommand => "init"
  | SetupCommand => "setup"
  | DownloadCommand => "download"
  end.

(** A command that notes its name in the outside world and then returns
    or raises. *)
Definition note (name : string) (r : result unit)
    : Environment unit unit unit → list string → result unit * list string :=
  λ _ w, (r, w ++ [name]).

(** The setup sequence with a member for each internal command; the
    members picked by [fails] raise after their work. *)
Definition example_member (fails : command_id → bool) (cls : command_id)
    : @command_class unit unit unit (list string) :=
  PlainCommand (class_label cls) false
    (note (class_label cls)
       (if fails cls then Raise (GoogkitError (class_label cls +:+ " failed"))
        else Ok ())).

Definition example_members (fails : command_id → bool)
    : list (@command_class unit unit unit (list string)) :=
  map (example_member fails) SetupCommand_internal_commands.

Definition example_sequence (fails : command_id → bool)
    : @command_class unit unit unit (list string) :=
  SequenceCommand "setup" false (example_members fails).

Definition update_deps_fails : command_id → bool :=
  λ cls, bool_decide (cls = UpdateDepsCommand).

Definition example_needy : @command_class unit unit unit (list string) :=
  PlainCommand "Needy" true (note "Needy" (Ok ())).

Definition example_env (config : option unit) : Environment unit unit unit :=
  MkEnvironment 7 "/project" () () config.

(** A dispatcher whose commands note their names in the outside world;
    the classes picked by [fails] raise instead. *)
Definition example_collaborators (fails : command_id → bool)
    : collaborators command_id (list string * bool) unit (list string) :=
  Collaborators
    (λ cls, match cls with
            | ApplyConfigCommand | UpdateDepsCommand | BuildCommand => true
            | _ => false
            end)
    (λ cls _ w,
       if fails cls then (Raise (GoogkitError (class_label cls +:+ " failed")), w)
       else (Ok (), w ++ [class_label cls]))
    (λ cwd _, Ok cwd)
    (λ _ w, Ok w)
    (λ _, Ok "default.cfg")
    (λ _, Ok "user.cfg")
    (λ cwd _, Ok (cwd +:+ "/googkit.cfg"))
    (λ _ _ _ _, Ok ())
    fst
    (λ parser name, snd parser && bool_decide (name = "--version")).

Definition nothing_fails : command_id → bool := λ _, false.

Definition apply_config_fails : command_id → bool :=
  λ cls, bool_decide (cls = ApplyConfigCommand).

Definition example_process : process command_id (list string) :=
  Process [] [] [] [] 0.

(** [DEFAULT_TREE] with one more name, for three classes in a row. *)
Definition example_tree : gmap string (node command_id) :=
  <["all" := Leaf [InitCommand; ApplyConfigCommand; UpdateDepsCommand]]> DEFAULT_TREE.

Definition example_main (fails : command_id → bool) (commands : list string)
    : termination * process command_id (list string) :=
  main (example_collaborators fails) example_tree (commands, false)
       "/project" example_process.

(** A file system as the entries of its directories. *)
Definition example_listdir (dir : string) (fs : gmap string (list string))
    : result (list string) :=
  match fs !! dir with
  | Some entries => Ok entries
  | None => Raise (OtherError "OSError")
  end.

Definition example_copy_tree (src dst : string) (fs : gmap string (list string))
    : result unit * gmap string (list string) :=
  (Ok (), <[dst := fs !!! dst ++ fs !!! src]> fs).

Definition example_fs : gmap string (list string) :=
  <["/template" := ["index.html"; "js"; "googkit.cfg"]]>
  (<["/project" := ["README"; "js"]]> ∅).

(** ** More of [googkit/__init__.py]: what a run constructed *)

(** The classes instantiated and the classes run, in order. *)
Definition constructed_classes {C} (T : list (event C)) : list C :=
  omap (λ ev, match ev with Construct cls _ => Some cls | _ => None end) T.

Definition run_order {C} (T : list (event C)) : list C :=
  omap (λ ev, match ev with Run cls _ => Some cls | _ => None end) T.

(** The same collaborators with a parser that reports no option. *)
Definition without_options {C A Cfg W} (X : collaborators C A Cfg W)
    : collaborators C A Cfg W :=
  Collaborators (needs_config X) (run_command X) (project_root X) (chdir X)
    (default_config X) (user_config X) (project_config X) (config_load X)
    (parser_commands X) (λ _ _, false).

(** ** [googkit/lib/file.py] *)

(** [os.path.commonprefix([a, b])]: the longest common leading run of
    characters of the two strings. *)
Fixpoint commonprefix (a b : string) : string :=
  match a, b with
  | String x a', String y b' =>
      if Ascii.eqb x y then String x (commonprefix a' b') else EmptyString
  | _, _ => EmptyString
  end.

(** [s[n:]] *)
Fixpoint slice_from (n : nat) (s : string) : string :=
  match n, s with
  | 0, _ => s
  | S n', String _ s' => slice_from n' s'
  | S _, EmptyString => EmptyString
  end.

(** [os.path.join(a, b)] of [posixpath]. *)
Definition posix_join (a b : string) : string :=
  match b with
  | String "/" _ => b
  | _ =>
      if bool_decide (a = "") || bool_decide (slice_from (String.length a - 1) a = "/")
      then a +:+ b
      else a +:+ "/" +:+ b
  end.

Section ReplaceRoot.
(** [os.path.join] *)
Variable join : string → string → string.

Definition _replace_root (target old_root new_root : string) : string :=
  let prefix := commonprefix target old_root in
  let diff := slice_from (String.length prefix + 1) target in
  join new_root diff.

End ReplaceRoot.

(** [l.remove(x)]: drops the first [x], raises ValueError without one. *)
Fixpoint list_remove (x : string) (l : list string) : result (list string) :=
  match l with
  | [] => Raise (OtherError "ValueError")
  | y :: l' =>
      if bool_decide (x = y) then Ok l'
      else match list_remove x l' with
           | Ok r => Ok (y :: r)
           | Raise e => Raise e
           end
  end.

(** The loop of [copytree] that removes the ignored directories from
    [src_dirs] while it iterates over it:
    [for src_dir in src_dirs: if src_dir in ignore_objs:
    src_dirs.remove(src_dir)].  The iterator of a list is a position [i]
    into the list as it is now; [fuel] bounds the iterations that are
    left. *)
Fixpoint remove_ignored_from (fuel i : nat) (ignore_objs src_dirs : list string)
    : result (list string) :=
  match src_dirs !! i with
  | None => Ok src_dirs
  | Some src_dir =>
      match fuel with
      | 0 => Raise (OtherError "out of fuel")
      | S fuel' =>
          if bool_decide (src_dir ∈ ignore_objs)
          then match list_remove src_dir src_dirs with
               | Ok src_dirs' => remove_ignored_from fuel' (S i) ignore_objs src_dirs'
               | Raise e => Raise e
               end
          else remove_ignored_from fuel' (S i) ignore_objs src_dirs
      end
  end.

(** No list has more positions than elements. *)
Definition remove_ignored (ignore_objs src_dirs : list string)
    : result (list string) :=
  remove_ignored_from (length src_dirs) 0 ignore_objs src_dirs.

(** What the loop leaves of a list without repetitions: an ignored name
    is dropped and the name after it is passed over. *)
Fixpoint pruned (ignore_objs src_dirs : list string) : list string :=
  match src_dirs with
  | [] => []
  | x :: rest =>
      if bool_decide (x ∈ ignore_objs)
      then match rest with
           | [] => []
           | y :: rest' => y :: pruned ignore_objs rest'
           end
      else x :: pruned ignore_objs rest
  end.

(** ** [BuildCommand.compile_resource]: [googkit/commands/build.py] *)

(** [s.find(sub)] *)
Definition str_find (s sub : string) : Z :=
  match index 0 sub s with
  | Some n => Z.of_nat n
  | None => (-1)%Z
  end.

Definition found (s sub : string) : bool := bool_decide (0 ≤ str_find s sub)%Z.

Definition double_quote : string := String "034"%char EmptyString.
Definition newline : string := String "010"%char EmptyString.

Definition BASE_JS : string := "<!--@base_js@-->".
Definition DEPS_JS : string := "<!--@deps_js@-->".
Definition REQUIRE_MAIN : string := "<!--@require_main@-->".

Section CompileResource.
Context {FS : Type}.
(** [googkit.lib.strutil.line_indent] *)
Variable line_indent : string → string.
(** Reading the lines of a file, and opening it for writing (which
    empties it) and writing lines to it. *)
Variable read_lines : string → FS → result (list string).
Variable write_lines : string → list string → FS → result unit * FS.

(** [script = '<script src="{src}"></script>\n'.format(src=...)] *)
Definition script_line (compiled_js_path : string) : string :=
  "<script src=" +:+ double_quote +:+ compiled_js_path +:+ double_quote
  +:+ "></script>" +:+ newline.

Record cr_vars : Type := CrVars {
  cr_lines : list string;
  cr_line : string
}.

Definition cr_body (compiled_js_path : string) (line : string)
    : stmt cr_vars unit :=
  assign (λ s, CrVars (cr_lines s) line) ;;;
  when (λ s, found (cr_line s) BASE_JS) continue_ ;;;
  when (λ s, found (cr_line s) DEPS_JS) continue_ ;;;
  when (λ s, found (cr_line s) REQUIRE_MAIN)
    (assign (λ s, CrVars (cr_lines s)
                    (line_indent (cr_line s) +:+ script_line compiled_js_path))) ;;;
  assign (λ s, CrVars (cr_lines s ++ [cr_line s]) (cr_line s)).

(** The lines collected by the first [with] block. *)
Definition compiled_lines (compiled_js_path : string) (input : list string)
    : list string :=
  match flow_state (for_each (cr_body compiled_js_path) input (CrVars [] "")) with
  | Some s => cr_lines s
  | None => []
  end.

Definition compile_resource (path compiled_js_path : string) (fs : FS)
    : result unit * FS :=
  match read_lines path fs with
  | Raise e => (Raise e, fs)
  | Ok input => write_lines path (compiled_lines compiled_js_path input) fs
  end.

(** What becomes of one line. *)
Definition compile_line (compiled_js_path line : string) : option string :=
  if found line BASE_JS then None
  else if found line DEPS_JS then None
  else if found line REQUIRE_MAIN
       then Some (line_indent line +:+ script_line compiled_js_path)
       else Some line.

End CompileResource.

(** A line without any of the three markers. *)
Definition unmarked (line : string) : Prop :=
  found line BASE_JS = false ∧ found line DEPS_JS = false
  ∧ found line REQUIRE_MAIN = false.

(** A line that is not dropped. *)
Definition surviving (line : string) : Prop :=
  found line BASE_JS = false ∧ found line DEPS_JS = false.

(** The same collaborators outside of a project: no project root is
    found. *)
Definition outside_project {C A Cfg W} (X : collaborators C A Cfg W)
    : collaborators C A Cfg W :=
  Collaborators (needs_config X) (run_command X)
    (λ _ _, Raise (GoogkitError "No project found"))
    (chdir X) (default_config X) (user_config X) (project_config X)
    (config_load X) (parser_commands X) (parser_option X).

(** Files as their lines. *)
Definition example_read_lines (path : string) (fs : gmap string (list string))
    : result (list string) :=
  match fs !! path with
  | Some lines => Ok lines
  | None => Raise (OtherError "IOError")
  end.

Definition example_write_lines (path : string) (lines : list string)
    (fs : gmap string (list string)) : result unit * gmap string (list string) :=
  (Ok (), <[path := lines]> fs).

Definition example_line_indent (line : string) : string := "  ".

Definition example_html : list string :=
  ["<html>";
   "  <script src=base.js></script><!--@base_js@-->";
   "  <script src=deps.js></script><!--@deps_js@-->";
   "  <script>goog.require(main);</script><!--@require_main@-->";
   "</html>"].

Definition example_plain : list string := ["<html>"; "</html>"].

Definition example_files : gmap string (list string) :=
  <["index.html" := example_html]> (<["plain.html" := example_plain]> ∅).

(** A tree with the empty name among its top-level names. *)
Definition example_tree_empty_name : gmap string (node command_id) :=
  <["" := Leaf [InitCommand]]> DEFAULT_TREE.

(** * Properties *)

Section CommandTreeFacts.
Context {C : Type}.

Abbreviation tree := (gmap string (node C)).
Abbreviation pyval := (option (node C)).

Lemma chain_return_absorb {S R} (r : S → R) (k : stmt S R) (s : S) :
  (return_ r ;;; k) s = return_ r s.
Proof. reflexivity. Qed.

Lemma chain_cong_r {S R} (a b b' : stmt S R) :
  (∀ s, b s = b' s) → ∀ s, (a ;;; b) s = (a ;;; b') s.
Proof. intros Hb s. unfold chain. destruct (a s); auto. Qed.

Lemma cc_body_tail_dead (arg : string) (s : @cc_vars C) :
  cc_body arg s = cc_body_live arg s.
Proof.
  unfold cc_body, cc_body_live.
  do 4 (apply chain_cong_r; clear s; intros s).
  apply chain_return_absorb.
Qed.

Lemma for_each_ext {A S R} (f g : A → stmt S R) (xs : list A) :
  (∀ x s, f x s = g x s) → ∀ s, for_each f xs s = for_each g xs s.
Proof.
  intros Hfg. induction xs as [|x xs IH]; intros s; simpl; [done|].
  rewrite Hfg. destruct (g x s); auto.
Qed.

Lemma cc_loop_after_leaf (args : list string) (v nv : pyval) (l : list C) :
  call (for_each cc_body_live args ;;; return_ cc_last_value) (CcVars v (Some l) nv)
  = Ok (match args with [] => Some l | _ :: _ => None end).
Proof. destruct args; reflexivity. Qed.

Lemma cc_loop_walk (args : list string) (d : tree) (nv : pyval) :
  call (for_each cc_body_live args ;;; return_ cc_last_value)
       (CcVars (Some (Branch d)) None nv)
  = Ok (walk d args).
Proof.
  revert d nv. induction args as [|arg rest IH]; intros d nv; [done|].
  unfold call, chain in *. simpl.
  unfold cc_body_live, chain, when, get_into. simpl.
  destruct (d !! arg) as [[l|d']|] eqn:Hd; simpl; [| |done].
  - destruct rest; reflexivity.
  - apply (IH d' (Some (Branch d'))).
Qed.

Lemma command_classes_live_walk (t : tree) (args : list string) :
  command_classes_live t args = Ok (walk t args).
Proof. apply cc_loop_walk. Qed.

Lemma command_classes_eq_live (t : tree) (args : list string) :
  command_classes t args = command_classes_live t args.
Proof.
  unfold command_classes, command_classes_live, call, chain.
  by rewrite (for_each_ext cc_body cc_body_live args cc_body_tail_dead).
Qed.

Lemma command_classes_walk (t : tree) (args : list string) :
  command_classes t args = Ok (walk t args).
Proof. rewrite command_classes_eq_live. apply command_classes_live_walk. Qed.

Lemma walk_lookup_path (d : tree) (p : list string) :
  walk d p = lookup_path d p ≫= as_list ∘ Some.
Proof.
  revert d. induction p as [|k p IH]; intros d; [done|]. simpl.
  destruct (d !! k) as [[l|d']|]; [by destruct p | apply IH | done].
Qed.

Lemma lookup_path_branch_app (d d' : tree) (p q : list string) :
  lookup_path d p = Some (Branch d') →
  lookup_path d (p ++ q) = lookup_path d' q.
Proof.
  revert d. induction p as [|k p IH]; intros d; simpl.
  - by intros [= ->].
  - destruct (d !! k) as [[l|d1]|]; [by destruct p | apply IH | done].
Qed.

Lemma lookup_path_leaf_app (d : tree) (p q : list string) (l : list C) :
  lookup_path d p = Some (Leaf l) → q ≠ [] →
  lookup_path d (p ++ q) = None.
Proof.
  revert d. induction p as [|k p IH]; intros d; simpl; [done|].
  destruct (d !! k) as [[l'|d1]|]; [|by apply IH|done].
  destruct p; [|done]. intros _ Hq. by destruct q.
Qed.

Lemma lookup_path_unknown (d : tree) (k : string) (rest : list string) :
  d !! k = None → lookup_path d (k :: rest) = None.
Proof. intros Hk. simpl. by rewrite Hk. Qed.


Lemma command_classes_Some (t : tree) (args : list string) (l : list C) :
  command_classes t args = Ok (Some l) ↔ lookup_path t args = Some (Leaf l).
Proof.
  rewrite command_classes_walk, walk_lookup_path.
  destruct (lookup_path t args) as [[l'|d']|]; simpl; naive_solver.
Qed.

(** *** [right_commands] *)

Lemma for_each_cons {X S R} (body : X → stmt S R) (x : X) (xs : list X) (s : S) :
  for_each body (x :: xs) s
  = match body x s with
    | Next s' | Continue s' => for_each body xs s'
    | Break s' => Next s'
    | Return r => Return r
    | Throw e s' => Throw e s'
    end.
Proof. reflexivity. Qed.

Lemma rc_body_step (arg : string) (d : tree) (acc : list string) (nd : pyval) :
  rc_body arg (RcVars (Some (Branch d)) acc nd)
  = match d !! arg with
    | None => Break (RcVars (Some (Branch d)) acc None)
    | Some (Leaf l) => Break (RcVars (Some (Branch d)) (acc ++ [arg]) (Some (Leaf l)))
    | Some (Branch d') =>
        Next (RcVars (Some (Branch d')) (acc ++ [arg]) (Some (Branch d')))
    end.
Proof.
  unfold rc_body, chain, when, get_into, assign, break_. simpl.
  by destruct (d !! arg) as [[l|d']|].
Qed.

Lemma rc_loop (args : list string) (d : tree) (acc : list string) (nd : pyval) :
  ∃ s', for_each rc_body args (RcVars (Some (Branch d)) acc nd) = Next s'
        ∧ rc_result s' = acc ++ resolved d args.
Proof.
  revert d acc nd. induction args as [|arg rest IH]; intros d acc nd.
  - eexists. split; [done|]. simpl. by rewrite app_nil_r.
  - rewrite for_each_cons, rc_body_step. simpl.
    destruct (d !! arg) as [[l|d']|] eqn:Hd.
    + eexists. split; done.
    + destruct (IH d' (acc ++ [arg]) (Some (Branch d'))) as (s' & Hs' & Hr).
      exists s'. split; [done|]. by rewrite Hr, <- app_assoc.
    + eexists. split; [done|]. simpl. by rewrite app_nil_r.
Qed.

Lemma right_commands_resolved (t : tree) (args : list string) :
  right_commands t args = Ok (resolved t args).
Proof.
  unfold right_commands, call, chain.
  destruct (rc_loop args t [] None) as (s' & -> & Hs'). simpl.
  by rewrite Hs'.
Qed.

Lemma resolved_prefix (d : tree) (args : list string) :
  resolved d args `prefix_of` args.
Proof.
  revert d. induction args as [|arg rest IH]; intros d; simpl; [done|].
  destruct (d !! arg) as [[l|d']|].
  - by apply (prefix_cons arg [] rest), prefix_nil.
  - by apply prefix_cons.
  - apply prefix_nil.
Qed.

Lemma resolved_lookup (d : tree) (args : list string) :
  is_Some (lookup_path d (resolved d args)).
Proof.
  revert d. induction args as [|arg rest IH]; intros d; simpl; [done|].
  destruct (d !! arg) as [[l|d']|] eqn:Hd; simpl; [|..|done].
  - by rewrite Hd.
  - rewrite Hd. apply IH.
Qed.

Lemma resolved_longest (d : tree) (args q : list string) :
  q `prefix_of` args → is_Some (lookup_path d q) →
  q `prefix_of` resolved d args.
Proof.
  revert d q. induction args as [|arg rest IH]; intros d q Hq Hsome.
  - apply prefix_nil_inv in Hq as ->. done.
  - destruct q as [|k q']; [apply prefix_nil|].
    destruct Hq as [tl Htl]. injection Htl as <- ->.
    simpl in *. destruct (d !! arg) as [[l|d']|]; simpl.
    + destruct q'; [done|]. by destruct Hsome.
    + apply prefix_cons, IH; [by eexists|done].
    + by destruct Hsome.
Qed.

(** *** [available_commands] *)

Lemma ac_loop_listing (args : list string) (d : tree) (nd : pyval) :
  call (for_each ac_body args ;;;
        when (λ s, negb (is_dict (ac_command_dict s))) (return_ (λ _, [])) ;;;
        ac_listing)
       (AcVars (Some (Branch d)) nd)
  = listing d args.
Proof.
  revert d nd. induction args as [|arg rest IH]; intros d nd.
  - unfold call, chain, when, ac_listing. simpl.
    by destruct (public_commands (keys d)).
  - unfold call, chain in *. simpl.
    unfold ac_body, chain, when, get_into, assign, return_. simpl.
    destruct (d !! arg) as [[l|d']|] eqn:Hd; simpl; [|apply IH|done].
    by destruct rest.
Qed.

Lemma available_commands_listing (t : tree) (args : list string) :
  available_commands t args = listing t args.
Proof. apply ac_loop_listing. Qed.

Lemma listing_branch (d d' : tree) (p : list string) :
  lookup_path d p = Some (Branch d') → listing d p = listing d' [].
Proof.
  revert d. induction p as [|k p IH]; intros d; simpl.
  - by intros [= ->].
  - destruct (d !! k) as [[l|d1]|]; [by destruct p|apply IH|done].
Qed.

Lemma listing_leaf (d : tree) (p : list string) (l : list C) :
  lookup_path d p = Some (Leaf l) → listing d p = Ok [].
Proof.
  revert d. induction p as [|k p IH]; intros d; simpl; [done|].
  destruct (d !! k) as [[l'|d1]|]; [by destruct p|apply IH|done].
Qed.

Lemma listing_unknown (d d' : tree) (p rest : list string) (k : string) :
  lookup_path d p = Some (Branch d') → d' !! k = None →
  listing d (p ++ k :: rest) = Ok [].
Proof.
  revert d. induction p as [|k' p IH]; intros d; simpl.
  - intros [= ->] Hk. by rewrite Hk.
  - destruct (d !! k') as [[l|d1]|]; [by destruct p|apply IH|done].
Qed.

Lemma listing_past_leaf (d : tree) (p rest : list string) (l : list C) :
  lookup_path d p = Some (Leaf l) → rest ≠ [] →
  listing d (p ++ rest) = Raise AttributeError.
Proof.
  revert d. induction p as [|k p IH]; intros d; simpl; [done|].
  destruct (d !! k) as [[l'|d1]|]; [|apply IH|done].
  destruct p; [|done]. intros _ Hrest. by destruct rest.
Qed.

Lemma public_commands_filter (names : list string) :
  "" ∉ names →
  public_commands names = Ok (filter (λ n, internal_name n = false) names).
Proof.
  induction names as [|n names IH]; intros Hne; [done|].
  apply not_elem_of_cons in Hne as [Hn Hnames].
  simpl. destruct n as [|c n]; [done|]. simpl.
  rewrite (IH Hnames). rewrite filter_cons. simpl.
  destruct (Ascii.eqb c "_"); by case_decide.
Qed.

Lemma elem_of_keys (d : tree) (k : string) : k ∈ keys d ↔ is_Some (d !! k).
Proof.
  unfold keys. rewrite list_elem_of_fmap. split.
  - intros ([k' n] & -> & Hin). apply elem_of_map_to_list in Hin. by eexists.
  - intros [n Hn]. exists (k, n). split; [done|]. by apply elem_of_map_to_list.
Qed.

Global Instance str_le_total : Total str_le.
Proof. intros a b. apply String.leb_total. Qed.

Lemma sorted_Sorted (l : list string) : Sorted str_le (sorted l).
Proof. apply (Sorted_merge_sort str_le). Qed.

Lemma sorted_Permutation (l : list string) : sorted l ≡ₚ l.
Proof. apply merge_sort_Permutation. Qed.

(** The listing of a branch without an empty key: the names of its
    children that are not internal, in ascending order. *)
Lemma listing_here (d : tree) :
  d !! "" = None →
  ∃ names, listing d [] = Ok names ∧ Sorted str_le names ∧ NoDup names ∧
           ∀ k, k ∈ names ↔ is_Some (d !! k) ∧ internal_name k = false.
Proof.
  intros Hempty. simpl. rewrite public_commands_filter.
  - eexists. split; [done|]. split; [apply sorted_Sorted|]. split.
    + rewrite sorted_Permutation. apply NoDup_filter.
      apply NoDup_fst_map_to_list.
    + intros k. rewrite sorted_Permutation, list_elem_of_filter, elem_of_keys.
      tauto.
  - rewrite elem_of_keys, Hempty. by intros [].
Qed.

(** *** [register] *)

Lemma register_nonempty (t : tree) (init : list string) (final : string)
    (commands : list C) :
  register t (init ++ [final]) commands
  = Ok (register_path init final commands t).
Proof. unfold register. by rewrite last_snoc, removelast_last. Qed.

Lemma register_Ok (t t' : tree) (names : list string) (commands : list C) :
  register t names commands = Ok t' →
  ∃ init final, names = init ++ [final]
                ∧ t' = register_path init final commands t.
Proof.
  unfold register. destruct (last names) as [final|] eqn:Hlast; [|done].
  apply last_Some in Hlast as [init ->]. rewrite removelast_last.
  intros [= <-]. by exists init, final.
Qed.

Lemma register_empty (t : tree) (commands : list C) :
  register t [] commands = Raise IndexError.
Proof. reflexivity. Qed.

Lemma walk_register_path (init : list string) (final : string)
    (commands : list C) (d : tree) :
  walk (register_path init final commands d) (init ++ [final]) = Some commands.
Proof.
  revert d. induction init as [|n init IH]; intros d; simpl.
  - by rewrite lookup_insert_eq.
  - rewrite lookup_insert_eq. apply IH.
Qed.

Lemma register_path_twice (init : list string) (final : string)
    (l1 l2 : list C) (d : tree) :
  register_path init final l2 (register_path init final l1 d)
  = register_path init final l2 d.
Proof. destruct init; simpl; apply insert_insert_eq. Qed.

Lemma register_path_other (init : list string) (final : string)
    (commands : list C) (d : tree) (k : string) :
  head (init ++ [final]) ≠ Some k →
  register_path init final commands d !! k = d !! k.
Proof.
  destruct init as [|n init]; simpl; intros Hk;
    apply lookup_insert_ne; congruence.
Qed.

(** Each intermediate position of a registered path holds a branch whose
    only child is the next token of the path. *)
Lemma register_path_fresh (init : list string) (final : string)
    (commands : list C) (d : tree) (q rest : list string) (k : string) :
  q ≠ [] → init ++ [final] = q ++ k :: rest →
  ∃ m, lookup_path (register_path init final commands d) q = Some (Branch m)
       ∧ ∀ j, is_Some (m !! j) ↔ j = k.
Proof.
  revert d q. induction init as [|n init IH]; intros d q Hq Heq.
  - destruct q as [|a [|b q]]; [done|..]; simpl in Heq; [|destruct q; done].
    by destruct rest.
  - destruct q as [|a q]; [done|]. simpl in Heq. injection Heq as <- Heq.
    simpl. rewrite lookup_insert_eq.
    destruct q as [|b q].
    + simpl in *. eexists. split; [done|]. intros j.
      destruct init as [|n' init]; simpl in *; injection Heq as -> _.
      * rewrite lookup_insert_is_Some, lookup_empty. split; [|by left].
        intros [->|[_ []%is_Some_None]]. done.
      * rewrite lookup_insert_is_Some, lookup_empty. split; [|by left].
        intros [->|[_ []%is_Some_None]]. done.
    + by apply IH.
Qed.

Lemma cc_body_live_leaves (arg : string) (s s' : @cc_vars C) :
  cc_body_live arg s ≠ Next s'.
Proof.
  unfold cc_body_live, chain, when, get_into, assign, continue_, return_.
  destruct (bool_decide _); [done|].
  destruct (py_get _ _); [|done]. simpl.
  destruct (is_list a); [done|]. simpl. by destruct (is_dict a).
Qed.

(** *** Resolution and registration *)

(** C1: a path that leads to a leaf list [L], as every path does in the
    tree that [register] returns for it, resolves to exactly [L], and to
    NOT_FOUND ([None]) once any extra token follows it; a token
    sequence that ends in a branch (the empty sequence included) or meets
    a token that the branch reached does not have resolves to
    NOT_FOUND. *)
Theorem command_classes_exact_terminus (t : tree) :
  (∀ P L, lookup_path t P = Some (Leaf L) →
     command_classes t P = Ok (Some L)
     ∧ ∀ extra_token, command_classes t (P ++ [extra_token]) = Ok None)
  ∧ (∀ t0 P L, register t0 P L = Ok t → lookup_path t P = Some (Leaf L))
  ∧ (∀ B d, lookup_path t B = Some (Branch d) →
       command_classes t B = Ok None
       ∧ ∀ unknown rest, d !! unknown = None →
           command_classes t (B ++ unknown :: rest) = Ok None)
  ∧ command_classes t [] = Ok None.
Proof.
  split; [|split; [|split; [|done]]].
  - intros P L HP. split; [by apply command_classes_Some|].
    intros extra_token.
    rewrite command_classes_walk, walk_lookup_path.
    by rewrite (lookup_path_leaf_app t P [extra_token] L).
  - intros t0 P L (init & final & -> & ->)%register_Ok.
    apply command_classes_Some.
    by rewrite command_classes_walk, walk_register_path.
  - intros B d HB. split.
    + by rewrite command_classes_walk, walk_lookup_path, HB.
    + intros unknown rest Hunknown.
      rewrite command_classes_walk, walk_lookup_path.
      rewrite (lookup_path_branch_app t d B _ HB).
      by rewrite lookup_path_unknown.
Qed.

(** C9: the statements after the unconditional [return None] of the loop
    body are never reached (the statements before it never fall through),
    and [command_classes] computes the same result with them removed. *)
Theorem command_classes_dead_tail (t : tree) (args : list string) :
  (∀ arg s, @cc_body C arg s = (cc_body_live arg ;;; cc_body_tail) s)
  ∧ (∀ arg s s', @cc_body_live C arg s ≠ Next s')
  ∧ command_classes t args = command_classes_live t args.
Proof.
  split; [|split; [apply cc_body_live_leaves|apply command_classes_eq_live]].
  intros arg s. rewrite cc_body_tail_dead. unfold chain at 1.
  destruct (cc_body_live arg s) eqn:Hlive; try done.
  by apply cc_body_live_leaves in Hlive.
Qed.

(** C7: registering a leaf list at a non-empty path puts a fresh branch,
    whose only child is the next token, at every intermediate position,
    binds the last token to the leaf list and leaves the other top-level
    names alone; registering a second leaf list at the same path replaces
    the first, as if the first had never been registered. *)
Theorem register_last_write_wins (t : tree) (init : list string)
    (final : string) (L1 L2 : list C) :
  let names := init ++ [final] in
  ∃ t1 t2,
    register t names L1 = Ok t1
    ∧ register t1 names L2 = Ok t2
    ∧ command_classes t1 names = Ok (Some L1)
    ∧ command_classes t2 names = Ok (Some L2)
    ∧ register t names L2 = Ok t2
    ∧ (∀ q k rest, q ≠ [] → names = q ++ k :: rest →
         ∃ m, lookup_path t1 q = Some (Branch m) ∧ ∀ j, is_Some (m !! j) ↔ j = k)
    ∧ (∀ k, head names ≠ Some k → t1 !! k = t !! k).
Proof.
  intros names.
  exists (register_path init final L1 t), (register_path init final L2 t).
  unfold names. rewrite !register_nonempty, register_path_twice.
  rewrite !command_classes_walk, !walk_register_path.
  repeat split; try done.
  - intros q k rest Hq Hnames. by apply (register_path_fresh _ _ _ _ q rest).
  - intros k Hk. by apply register_path_other.
Qed.

End CommandTreeFacts.

(** C5: [available_commands] does not return the empty list when tokens
    remain after a leaf was reached: it asks the list for [get] and
    raises. *)
Theorem available_commands_past_leaf :
  available_commands DEFAULT_TREE ["build"; "x"] = Raise AttributeError.
Proof. reflexivity. Qed.

Lemma command_classes_exact_terminus_witness :
  command_classes DEFAULT_TREE ["config"; "apply"]
    = Ok (Some [ApplyConfigCommand; UpdateDepsCommand])
  ∧ command_classes DEFAULT_TREE (["config"; "apply"] ++ ["now"]) = Ok None
  ∧ command_classes DEFAULT_TREE ["config"] = Ok None
  ∧ command_classes DEFAULT_TREE (["config"] ++ "bogus" :: ["apply"]) = Ok None
  ∧ ∃ t, register DEFAULT_TREE ["deps"; "clean"] [InitCommand] = Ok t
         ∧ lookup_path t ["deps"; "clean"] = Some (Leaf [InitCommand]).
Proof.
  destruct (command_classes_exact_terminus DEFAULT_TREE)
    as (Hleaf & _ & Hbranch & _).
  destruct (Hleaf ["config"; "apply"] [ApplyConfigCommand; UpdateDepsCommand])
    as [H1 H2]; [reflexivity|].
  destruct (Hbranch ["config"]
              {["apply" := Leaf [ApplyConfigCommand; UpdateDepsCommand]]})
    as [H3 H4]; [reflexivity|].
  split; [exact H1|]. split; [apply H2|]. split; [exact H3|].
  split; [apply H4; reflexivity|].
  eexists. split; [reflexivity|].
  eapply (proj1 (proj2 (command_classes_exact_terminus _))). reflexivity.
Defined.

(** ** Commands *)

Section CommandFacts.
Context {A T Cfg W : Type}.
Variable config_required_message : string.

Abbreviation Env := (Environment A T Cfg).
Abbreviation cclass := (@command_class A T Cfg W).
Abbreviation cstate := (@cmd_state W).
Abbreviation run' := (@run A T Cfg W config_required_message).
Abbreviation run_members' := (@run_members A T Cfg W config_required_message).
Abbreviation run_internal' := (@run_internal A T Cfg W config_required_message).

Lemma command_class_nested_ind (P : cclass → Prop) :
  (∀ name needs work, P (PlainCommand name needs work)) →
  (∀ name needs members, Forall P members → P (SequenceCommand name needs members)) →
  ∀ c, P c.
Proof.
  intros Hplain Hseq. fix IH 1. intros [name needs work|name needs members].
  - apply Hplain.
  - apply Hseq. induction members as [|m members IHm]; constructor.
    + apply IH.
    + apply IHm.
Qed.

Lemma run_unfold (c : cclass) (env : Env) (s : cstate) :
  run' c env s
  = if class_needs_config c && is_absent (env_config env)
    then (Raise (ConfigRequired config_required_message), s)
    else run_internal' c env s.
Proof.
  destruct c as [name needs work|name needs members]; simpl; [done|].
  destruct (needs && _); [done|].
  generalize (log_event (RunInternal name (env_id env)) s). clear s.
  induction members as [|m members IH]; intros s; [done|]. simpl.
  destruct (run _ m env _) as [[[]|e] s']; [apply IH|done].
Qed.

Lemma run_members_cons (m : cclass) (rest : list cclass) (env : Env) (s : cstate) :
  run_members' (m :: rest) env s
  = match run' m env (log_event (Instantiated (class_name m) (env_id env)) s) with
    | (Ok _, s1) => run_members' rest env s1
    | (Raise e, s1) => (Raise e, s1)
    end.
Proof. reflexivity. Qed.

Lemma run_members_app (pre post : list cclass) (env : Env) (s : cstate) :
  run_members' (pre ++ post) env s
  = match run_members' pre env s with
    | (Ok _, s1) => run_members' post env s1
    | (Raise e, s1) => (Raise e, s1)
    end.
Proof.
  revert s. induction pre as [|m pre IH]; intros s; [done|].
  rewrite <- app_comm_cons, !run_members_cons.
  destruct (run' m env _) as [[[]|e] s1]; [apply IH|done].
Qed.

Lemma logs_with_refl (env : Env) (s : cstate) : logs_with env s s.
Proof. exists []. by rewrite app_nil_r. Qed.

Lemma logs_with_trans (env : Env) (s1 s2 s3 : cstate) :
  logs_with env s1 s2 → logs_with env s2 s3 → logs_with env s1 s3.
Proof.
  intros (e1 & H1 & F1) (e2 & H2 & F2). exists (e1 ++ e2).
  rewrite H2, H1, app_assoc. split; [done|]. by apply Forall_app.
Qed.

Lemma logs_with_event (env : Env) (ev : command_event) (s : cstate) :
  event_env ev = env_id env → logs_with env s (log_event ev s).
Proof. intros Hev. exists [ev]. split; [done|]. by constructor. Qed.

Lemma run_members_logs (members : list cclass) (env : Env) :
  Forall (λ c, ∀ s r s', run' c env s = (r, s') → logs_with env s s') members →
  ∀ s r s', run_members' members env s = (r, s') → logs_with env s s'.
Proof.
  induction 1 as [|m members Hm _ IH]; intros s r s'.
  - intros [= _ <-]. apply logs_with_refl.
  - rewrite run_members_cons.
    destruct (run' m env _) as [[[]|e] s1] eqn:Hrun.
    + intros Hrest. eapply logs_with_trans; [|by eapply IH].
      eapply logs_with_trans; [|by eapply Hm]. by apply logs_with_event.
    + intros [= _ <-].
      eapply logs_with_trans; [|by eapply Hm]. by apply logs_with_event.
Qed.

Lemma run_logs (c : cclass) (env : Env) :
  ∀ s r s', run' c env s = (r, s') → logs_with env s s'.
Proof.
  induction c as [name needs work|name needs members IH]
    using command_class_nested_ind; intros s r s'; rewrite run_unfold.
  - destruct (_ && _); [intros [= _ <-]; apply logs_with_refl|].
    unfold run_internal. destruct (work _ _) as [r' w]. intros [= _ <-].
    exists [RunInternal name (env_id env)]. split; [done|]. by constructor.
  - destruct (_ && _); [intros [= _ <-]; apply logs_with_refl|].
    unfold run_internal. intros Hrun.
    eapply logs_with_trans; [|by eapply run_members_logs].
    by apply logs_with_event.
Qed.

(** C6: a command that needs a config, run in an environment without one,
    raises ConfigRequired, a GoogkitError, and leaves the world and the
    log as they were: [run_internal] did nothing; otherwise [run] is one
    call of [run_internal]. *)
Theorem run_checks_config (c : cclass) (env : Env) (s : cstate) :
  (class_needs_config c = true → env_config env = None →
     run' c env s = (Raise (ConfigRequired config_required_message), s)
     ∧ ConfigRequired config_required_message = GoogkitError config_required_message)
  ∧ (class_needs_config c = false ∨ env_config env ≠ None →
       run' c env s = run_internal' c env s
       ∧ take (S (length (cs_log s))) (cs_log (run' c env s).2)
         = cs_log s ++ [RunInternal (class_name c) (env_id env)]).
Proof.
  rewrite run_unfold. split.
  - intros -> ->. done.
  - intros Hrun.
    assert (class_needs_config c && is_absent (env_config env) = false) as ->.
    { destruct Hrun as [->|Hcfg]; [done|].
      destruct (env_config env); [|done]. simpl. by rewrite andb_false_r. }
    split; [done|].
    + assert (∃ evs, cs_log (run_internal' c env s).2
                     = (cs_log s ++ [RunInternal (class_name c) (env_id env)]) ++ evs)
        as [evs ->].
      { unfold run_internal. destruct c as [name needs work|name needs members].
        - destruct (work _ _) as [r w]. exists []. simpl. by rewrite app_nil_r.
        - simpl.
          destruct (run_members' members env
                      (log_event (RunInternal name (env_id env)) s)) as [r s1] eqn:Hm.
          apply run_members_logs in Hm as (evs & Hlog & _); [by exists evs|].
          apply Forall_forall. intros m _. apply run_logs. }
      rewrite take_app_length'; [done|]. rewrite length_app. simpl. lia.
Qed.

(** C3: a sequence command runs its members in order, each constructed
    with the environment of the sequence command itself; when a member's
    [run] raises, the members after it are neither constructed nor run,
    and the sequence command ends in the state that member left, with
    that member's exception. *)
Theorem sequence_fail_fast (name : string) (needs : bool) (env : Env) :
  (∀ members s,
     run_internal' (SequenceCommand name needs members) env s
     = run_members' members env (log_event (RunInternal name (env_id env)) s))
  ∧ (∀ m rest s,
       run_members' (m :: rest) env s
       = match run' m env (log_event (Instantiated (class_name m) (env_id env)) s) with
         | (Ok _, s1) => run_members' rest env s1
         | (Raise e, s1) => (Raise e, s1)
         end)
  ∧ (∀ before Mi after s s1 e s2,
       run_members' before env s = (Ok (), s1) →
       run' Mi env (log_event (Instantiated (class_name Mi) (env_id env)) s1)
         = (Raise e, s2) →
       run_members' (before ++ Mi :: after) env s = (Raise e, s2))
  ∧ (∀ members s r s',
       run_members' members env s = (r, s') →
       ∃ evs, cs_log s' = cs_log s ++ evs
              ∧ Forall (λ ev, event_env ev = env_id env) evs).
Proof.
  split; [done|]. split; [done|]. split.
  - intros before Mi after s s1 e s2 Hbefore HMi.
    by rewrite run_members_app, Hbefore, run_members_cons, HMi.
  - intros members s r s' Hrun. eapply run_members_logs; [|done].
    apply Forall_forall. intros m _. apply run_logs.
Qed.

End CommandFacts.

(** ** The dispatcher *)

Section DispatcherFacts.
Context {C A Cfg W : Type}.
Variable X : collaborators C A Cfg W.

Abbreviation tree := (gmap string (node C)).
Abbreviation proc := (process C W).
Abbreviation vars := (@main_vars C Cfg W).

(** *** Events *)

Lemma environment_ids_app (T1 T2 : list (event C)) :
  environment_ids (T1 ++ T2) = environment_ids T1 ++ environment_ids T2.
Proof. apply omap_app. Qed.

Lemma instance_environments_app (T1 T2 : list (event C)) :
  instance_environments (T1 ++ T2)
  = instance_environments T1 ++ instance_environments T2.
Proof. apply omap_app. Qed.

Lemma loads_app (T1 T2 : list (event C)) :
  loads (T1 ++ T2) = loads T1 + loads T2.
Proof. unfold loads. by rewrite omap_app, length_app. Qed.

Local Ltac traced_step :=
  split; unfold loads; simpl; rewrite ?app_nil_r, <- ?app_assoc;
  try done; try lia; try (destruct (is_absent _); simpl; lia).

Lemma traced_refl (s : vars) : traced s s [].
Proof. traced_step. Qed.

Lemma traced_trans (s s1 s2 : vars) (T1 T2 : list (event C)) :
  traced s s1 T1 → traced s1 s2 T2 →
  (0 < loads T1 → is_absent (mv_config s1) = false) →
  traced s s2 (T1 ++ T2).
Proof.
  intros [] [] Hloaded. split.
  - by rewrite tr_trace1, tr_trace0, app_assoc.
  - rewrite environment_ids_app, length_app, seq_app.
    by rewrite <- tr_envs0, <- tr_next0, <- tr_envs1.
  - rewrite environment_ids_app, length_app. lia.
  - by rewrite instance_environments_app, environment_ids_app, tr_inst0, tr_inst1.
  - rewrite loads_app.
    destruct (is_absent (mv_config s)) eqn:Hs.
    + destruct (is_absent (mv_config s1)) eqn:Hs1; [|lia].
      destruct (decide (0 < loads T1)) as [Hpos|Hzero]; [|lia].
      by specialize (Hloaded Hpos).
    + rewrite (tr_kept0 eq_refl) in tr_loads1. lia.
  - auto.
  - rewrite loads_app. intros Hzero.
    rewrite tr_lazy1, tr_lazy0; [done|lia|lia].
Qed.

(** *** One class *)

Lemma load_config_traced (cwd : string) (s : vars) :
  is_absent (mv_config s) = true →
  ∃ s', traced s s' [LoadConfig]
        ∧ ((∃ e, load_config X cwd s = Throw e s')
           ∨ (load_config X cwd s = Next s'
              ∧ is_absent (mv_config s') = false)).
Proof.
  intros Habsent. unfold load_config.
  destruct (project_root X cwd _) as [root|e].
  2: { eexists. split; [|left; by eexists]. traced_step. }
  destruct (chdir X root _) as [w|e].
  2: { eexists. split; [|left; by eexists]. traced_step. }
  destruct (find_config X cwd w) as [config|e].
  - eexists. split; [|right; done]. traced_step.
  - eexists. split; [|left; by eexists]. traced_step.
Qed.

Lemma construct_and_run_traced (cwd : string) (parser : A) (t : tree)
    (cls : C) (s : vars) :
  ∃ s', traced s s' [NewEnvironment (next_env (mv_proc s))
                       (negb (is_absent (mv_config s)));
                     Construct cls (next_env (mv_proc s));
                     Run cls (next_env (mv_proc s))]
        ∧ mv_config s' = mv_config s
        ∧ ((∃ e, construct_and_run X cwd parser t cls s = Throw e s')
           ∨ construct_and_run X cwd parser t cls s = Next s').
Proof.
  unfold construct_and_run, new_environment. simpl.
  destruct (run_command X cls _ _) as [[[]|e] w].
  - eexists. split; [|split; [|right; done]]; [|done]. traced_step.
  - eexists. split; [|split; [|left; by eexists]]; [|done]. traced_step.
Qed.

Lemma main_body_traced (cwd : string) (parser : A) (t : tree) (cls : C) (s : vars) :
  ∃ s' T,
    traced s s' T
    ∧ ((∃ e, main_body X cwd parser t cls s = Throw e s')
       ∨ (main_body X cwd parser t cls s = Next s'
          ∧ (0 < loads T → is_absent (mv_config s') = false)
          ∧ length (environment_ids T) = 1))
    ∧ length (environment_ids T) ≤ 1
    ∧ (needs_config X cls = false → loads T = 0)
    ∧ (is_absent (mv_config s) = true → needs_config X cls = true →
       ∃ T', T = LoadConfig :: T').
Proof.
  unfold main_body, chain, when.
  destruct (is_absent (mv_config s) && needs_config X cls) eqn:Hload.
  - apply andb_true_iff in Hload as [Habsent Hneeds].
    destruct (load_config_traced cwd s Habsent) as (s1 & Hs1 & [[e He]|[Hnext Hcfg]]).
    + exists s1, [LoadConfig]. rewrite He.
      split; [done|]. split; [left; by eexists|]. split; [simpl; lia|].
      split; [congruence|]. intros _ _. by eexists.
    + rewrite Hnext.
      destruct (construct_and_run_traced cwd parser t cls s1)
        as (s2 & Hs2 & Hkeep & Hrun).
      eexists s2, ([LoadConfig] ++ _).
      split; [by eapply traced_trans|].
      split; [|split; [simpl; lia|split; [congruence|intros _ _; by eexists]]].
      destruct Hrun as [[e ->]| ->]; [left; by eexists|right].
      split; [done|]. split; [|done]. intros _. by rewrite Hkeep.
  - destruct (construct_and_run_traced cwd parser t cls s)
      as (s2 & Hs2 & Hkeep & Hrun).
    eexists s2, _. split; [exact Hs2|].
    split; [|split; [simpl; lia|split; [done|]]].
    + destruct Hrun as [[e ->]| ->]; [left; by eexists|right].
      split; [done|]. split; [|done]. unfold loads. simpl. lia.
    + intros Habsent Hneeds. by rewrite Habsent, Hneeds in Hload.
Qed.

(** *** The loop *)

Lemma main_loop_traced (cwd : string) (parser : A) (t : tree)
    (classes : list C) (s : vars) :
  ∃ s' T,
    traced s s' T
    ∧ ((∃ e, for_each (main_body X cwd parser t) classes s = Throw e s')
       ∨ (for_each (main_body X cwd parser t) classes s = Next s'
          ∧ length (environment_ids T) = length classes))
    ∧ length (environment_ids T) ≤ length classes
    ∧ (Forall (λ cls, needs_config X cls = false) classes → loads T = 0).
Proof.
  revert s. induction classes as [|cls classes IH]; intros s.
  - exists s, []. split; [apply traced_refl|]. split; [by right|]. done.
  - rewrite for_each_cons.
    destruct (main_body_traced cwd parser t cls s)
      as (s1 & T1 & Hs1 & Hbody & Hlen1 & Hneeds1 & _).
    destruct Hbody as [[e ->]|(-> & Hloaded & Hone)].
    + exists s1, T1. split; [done|]. split; [left; by eexists|].
      split; [simpl; lia|]. intros Hall. apply Hneeds1. by inversion Hall.
    + destruct (IH s1) as (s2 & T2 & Hs2 & Hloop & Hlen2 & Hneeds2).
      exists s2, (T1 ++ T2). split; [by eapply traced_trans|].
      rewrite environment_ids_app, length_app, loads_app.
      split; [|split; [simpl; lia|]].
      * destruct Hloop as [[e ->]|[-> Hlen]]; [left; by eexists|right].
        split; [done|]. simpl. lia.
      * intros Hall. inversion Hall; subst. rewrite Hneeds1, Hneeds2; done.
Qed.

Lemma main_body_flow (cwd : string) (parser : A) (t : tree) (cls : C) (s : vars) :
  (∃ e s', main_body X cwd parser t cls s = Throw e s')
  ∨ (∃ s', main_body X cwd parser t cls s = Next s').
Proof.
  destruct (main_body_traced cwd parser t cls s)
    as (s' & T & _ & [[e He]|[Hnext _]] & _); eauto.
Qed.

Lemma main_loop_app (cwd : string) (parser : A) (t : tree)
    (before after : list C) (s : vars) :
  for_each (main_body X cwd parser t) (before ++ after) s
  = match for_each (main_body X cwd parser t) before s with
    | Next s1 => for_each (main_body X cwd parser t) after s1
    | other => other
    end.
Proof.
  revert s. induction before as [|cls before IH]; intros s; [done|].
  rewrite <- app_comm_cons, !for_each_cons.
  destruct (main_body_flow cwd parser t cls s) as [(e & s' & ->)|(s' & ->)];
    [done|apply IH].
Qed.

(** *** Help *)

Lemma print_names_stdout (names : list string) (p : proc) :
  print_names names p
  = Process (world p) (stdout p ++ map (λ name, "    " +:+ name) names)
            (errlog p) (trace p) (next_env p).
Proof.
  unfold print_names. revert p.
  induction names as [|name names IH]; intros [w out err tr n]; simpl.
  - by rewrite app_nil_r.
  - rewrite IH. simpl. by rewrite <- app_assoc.
Qed.

Lemma available_commands_resolved (t : tree) (commands : list string) :
  (∀ d, lookup_path t (resolved t commands) = Some (Branch d) → d !! "" = None) →
  ∃ names, available_commands t (resolved t commands) = Ok names
           ∧ next_level_names t (resolved t commands) names.
Proof.
  intros Hkeys. rewrite available_commands_listing. unfold next_level_names.
  destruct (resolved_lookup t commands) as [[l|d] Hnode]; rewrite Hnode.
  - exists []. split; [by eapply listing_leaf|done].
  - rewrite (listing_branch t d _ Hnode).
    destruct (listing_here d (Hkeys _ Hnode)) as (names & Hl & Hnames).
    by exists names.
Qed.

(** The version option ends [main] early only when there are no command
    tokens, and then nothing resolves. *)
Lemma resolved_not_version (t : tree) (parser : A) (classes : list C) :
  command_classes t (parser_commands X parser) = Ok (Some classes) →
  bool_decide (length (parser_commands X parser) = 0)
    && parser_option X parser "--version" = false.
Proof.
  intros Hclasses. destruct (parser_commands X parser); [done|].
  by rewrite bool_decide_eq_false_2.
Qed.

Lemma main_trace (t : tree) (parser : A) (cwd : string) (p : proc)
    (classes : list C) (s : vars) :
  command_classes t (parser_commands X parser) = Ok (Some classes) →
  flow_state (run_classes X cwd parser t classes p) = Some s →
  trace (main X t parser cwd p).2 = trace (mv_proc s).
Proof.
  intros Hclasses Hs. unfold main.
  rewrite (resolved_not_version t parser _ Hclasses), Hclasses.
  destruct (run_classes X cwd parser t classes p) as [s'|s'|s'|r|e s'];
    simplify_eq/=; try done.
  by destruct e.
Qed.

(** *** The turns of the loop *)

Lemma turns_cons (id : nat) (loaded : bool) (cls : C) (rest : list C) :
  turns (needs_config X) id loaded (cls :: rest)
  = turns (needs_config X) id loaded [cls]
    ++ turns (needs_config X) (S id) (loaded || needs_config X cls) rest.
Proof. simpl. by rewrite <- !app_assoc. Qed.

Lemma construct_and_run_eq (cwd : string) (parser : A) (t : tree) (cls : C)
    (s : vars) :
  construct_and_run X cwd parser t cls s
  = let id := next_env (mv_proc s) in
    let after w :=
      MainVars (mv_config s)
        (Process w (stdout (mv_proc s)) (errlog (mv_proc s))
           (trace (mv_proc s)
              ++ [NewEnvironment id (negb (is_absent (mv_config s)));
                  Construct cls id; Run cls id])
           (S id)) in
    match run_command X cls (MkEnvironment id cwd parser t (mv_config s))
            (world (mv_proc s)) with
    | (Ok _, w) => Next (after w)
    | (Raise e, w) => Throw e (after w)
    end.
Proof.
  unfold construct_and_run, new_environment, record_event, set_world. simpl.
  destruct (run_command X cls _ _) as [[[]|e] w]; by rewrite <- !app_assoc.
Qed.

Lemma main_body_turn (cwd : string) (parser : A) (t : tree) (cls : C) (s : vars) :
  (∃ s', main_body X cwd parser t cls s = Next s'
         ∧ trace (mv_proc s')
           = trace (mv_proc s)
             ++ turns (needs_config X) (next_env (mv_proc s))
                  (negb (is_absent (mv_config s))) [cls]
         ∧ next_env (mv_proc s') = S (next_env (mv_proc s))
         ∧ negb (is_absent (mv_config s'))
           = negb (is_absent (mv_config s)) || needs_config X cls)
  ∨ (∃ e s', main_body X cwd parser t cls s = Throw e s'
             ∧ (trace (mv_proc s')
                = trace (mv_proc s)
                  ++ turns (needs_config X) (next_env (mv_proc s))
                       (negb (is_absent (mv_config s))) [cls]
                ∨ trace (mv_proc s') = trace (mv_proc s) ++ [LoadConfig])).
Proof.
  unfold main_body, chain, when. simpl.
  destruct (is_absent (mv_config s)) eqn:Habsent; simpl.
  - destruct (needs_config X cls) eqn:Hneeds; simpl.
    + unfold load_config.
      destruct (project_root X cwd _) as [root|e]; simpl;
        [|right; eexists _, _; split; [done|by right]].
      destruct (chdir X root _) as [w|e]; simpl;
        [|right; eexists _, _; split; [done|by right]].
      destruct (find_config X cwd w) as [config|e]; simpl;
        [|right; eexists _, _; split; [done|by right]].
      rewrite construct_and_run_eq. simpl.
      destruct (run_command X cls _ _) as [[[]|e] w'].
      * left. eexists. split; [done|]. simpl. by rewrite <- !app_assoc.
      * right. eexists _, _. split; [done|]. left. simpl.
        by rewrite <- !app_assoc.
    + rewrite construct_and_run_eq. simpl. rewrite Habsent.
      destruct (run_command X cls _ _) as [[[]|e] w'].
      * left. eexists. split; [done|]. simpl. by rewrite Habsent.
      * right. eexists _, _. split; [done|]. by left.
  - rewrite construct_and_run_eq. simpl. rewrite Habsent.
    destruct (run_command X cls _ _) as [[[]|e] w'].
    + left. eexists. split; [done|]. simpl. by rewrite Habsent.
    + right. eexists _, _. split; [done|]. by left.
Qed.

Lemma main_loop_turns (cwd : string) (parser : A) (t : tree)
    (classes : list C) (s : vars) :
  (∃ s', for_each (main_body X cwd parser t) classes s = Next s'
         ∧ trace (mv_proc s')
           = trace (mv_proc s)
             ++ turns (needs_config X) (next_env (mv_proc s))
                  (negb (is_absent (mv_config s))) classes)
  ∨ (∃ e s' done,
       for_each (main_body X cwd parser t) classes s = Throw e s'
       ∧ done `prefix_of` classes
       ∧ (trace (mv_proc s')
          = trace (mv_proc s)
            ++ turns (needs_config X) (next_env (mv_proc s))
                 (negb (is_absent (mv_config s))) done
          ∨ trace (mv_proc s')
            = trace (mv_proc s)
              ++ turns (needs_config X) (next_env (mv_proc s))
                   (negb (is_absent (mv_config s))) done
              ++ [LoadConfig])).
Proof.
  revert s. induction classes as [|cls classes IH]; intros s.
  - left. exists s. split; [done|]. simpl. by rewrite app_nil_r.
  - rewrite for_each_cons.
    destruct (main_body_turn cwd parser t cls s)
      as [(s1 & -> & Htr1 & Hnext1 & Hcfg1)|(e & s1 & -> & Hthrow)].
    + destruct (IH s1) as [(s2 & -> & Htr2)|(e & s2 & done & -> & Hpre & Htr2)].
      * left. exists s2. split; [done|].
        rewrite Htr2, Htr1, Hnext1, Hcfg1, (turns_cons _ _ cls classes).
        by rewrite <- app_assoc.
      * right. exists e, s2, (cls :: done). split; [done|].
        split; [by apply prefix_cons|].
        rewrite Hnext1, Hcfg1, Htr1 in Htr2. rewrite (turns_cons _ _ cls done).
        destruct Htr2 as [-> | ->]; [left|right]; by rewrite <- !app_assoc.
    + right. destruct Hthrow as [Htr|Htr].
      * exists e, s1, [cls]. split; [done|].
        split; [by apply (prefix_cons cls [] classes), prefix_nil|by left].
      * exists e, s1, []. split; [done|]. split; [apply prefix_nil|]. by right.
Qed.

(** *** Runs of [main] *)

(** C2, as the code has it: the configuration is loaded at most once,
    at the first class of the list that needs it, after the classes
    before it were constructed and run without one, and never if no class
    needs it; an environment is constructed for each class, immediately
    before the instance of that class is constructed and run, and it
    carries the configuration as loaded so far, so the instances that
    [main] constructs are given pairwise different environments.  The
    events of a run are exactly the [turns] of the classes that had their
    turn, followed by the load that failed, if one did. *)
Theorem environment_per_class (t : tree) (parser : A) (cwd : string)
    (p : proc) (classes : list C) :
  ∃ s T,
    flow_state (run_classes X cwd parser t classes p) = Some s
    ∧ (command_classes t (parser_commands X parser) = Ok (Some classes) →
       trace (main X t parser cwd p).2 = trace (mv_proc s))
    ∧ trace (mv_proc s) = trace p ++ T
    ∧ loads T ≤ 1
    ∧ (Forall (λ cls, needs_config X cls = false) classes →
       loads T = 0 ∧ mv_config s = None)
    ∧ environment_ids T = seq (next_env p) (length (environment_ids T))
    ∧ instance_environments T = environment_ids T
    ∧ NoDup (instance_environments T)
    ∧ length (instance_environments T) ≤ length classes
    ∧ (run_classes X cwd parser t classes p = Next s →
       length (instance_environments T) = length classes)
    ∧ (∀ before cls after s1,
         classes = before ++ cls :: after →
         Forall (λ cls, needs_config X cls = false) before →
         needs_config X cls = true →
         run_classes X cwd parser t before p = Next s1 →
         mv_config s1 = None
         ∧ ∃ s2 T2, flow_state (main_body X cwd parser t cls s1) = Some s2
                    ∧ trace (mv_proc s2) = trace (mv_proc s1) ++ LoadConfig :: T2)
    ∧ ((run_classes X cwd parser t classes p = Next s
        ∧ T = turns (needs_config X) (next_env p) false classes)
       ∨ (∃ e done,
            run_classes X cwd parser t classes p = Throw e s
            ∧ done `prefix_of` classes
            ∧ (T = turns (needs_config X) (next_env p) false done
               ∨ T = turns (needs_config X) (next_env p) false done
                     ++ [LoadConfig])))
    ∧ (∀ cls s0,
         construct_and_run X cwd parser t cls s0
         = let id := next_env (mv_proc s0) in
           let after w :=
             MainVars (mv_config s0)
               (Process w (stdout (mv_proc s0)) (errlog (mv_proc s0))
                  (trace (mv_proc s0)
                     ++ [NewEnvironment id (negb (is_absent (mv_config s0)));
                         Construct cls id; Run cls id])
                  (S id)) in
           match run_command X cls (MkEnvironment id cwd parser t (mv_config s0))
                   (world (mv_proc s0)) with
           | (Ok _, w) => Next (after w)
           | (Raise e, w) => Throw e (after w)
           end).
Proof.
  unfold run_classes.
  destruct (main_loop_traced cwd parser t classes (MainVars None p))
    as (s & T & [] & Hloop & Hlen & Hneeds).
  simpl in *. exists s, T.
  assert (flow_state (for_each (main_body X cwd parser t) classes (MainVars None p))
          = Some s) as Hs by by destruct Hloop as [[e ->]|[-> _]].
  split; [done|].
  split; [intros Hclasses; by apply (main_trace _ _ _ _ classes)|].
  split; [done|]. split; [done|].
  split; [intros Hall; split; [auto|]; rewrite tr_lazy0; auto|].
  split; [done|]. split; [done|].
  split; [rewrite tr_inst0, tr_envs0; apply NoDup_seq|].
  split; [by rewrite tr_inst0|].
  split.
  { intros Hnext. rewrite tr_inst0.
    destruct Hloop as [[e He]|[_ Hl]]; [congruence|done]. }
  split.
  { intros before cls after s1 _ Hbefore Hcls Hrun.
    destruct (main_loop_traced cwd parser t before (MainVars None p))
      as (s1' & T1 & [] & Hloop1 & _ & Hneeds1).
    rewrite Hrun in Hloop1.
    destruct Hloop1 as [[e [=]]|[[= <-] _]].
    assert (mv_config s1 = None) as Hnone by (rewrite tr_lazy1; auto).
    split; [done|].
    destruct (main_body_traced cwd parser t cls s1)
      as (s2 & T2 & [] & Hbody & _ & _ & Hfirst).
    destruct Hfirst as [T' ->]; [by rewrite Hnone|done|].
    exists s2, T'. split; [|done].
    by destruct Hbody as [[e ->]|[-> _]]. }
  split; [|intros cls s0; apply construct_and_run_eq].
  destruct (main_loop_turns cwd parser t classes (MainVars None p))
    as [(s' & Hnext & Htr)|(e & s' & done & Hthrow & Hpre & Htr)]; simpl in *.
  - rewrite Hnext in Hs. injection Hs as ->. left. split; [done|].
    rewrite tr_trace0 in Htr. by apply app_inv_head in Htr.
  - rewrite Hthrow in Hs. injection Hs as ->. right. exists e, done.
    split; [done|]. split; [done|]. rewrite tr_trace0 in Htr.
    destruct Htr as [Htr|Htr]; apply app_inv_head in Htr; [by left|by right].
Qed.

(** C4: the first class whose turn raises ends the loop in the state it
    left, whatever classes follow; a GoogkitError is then logged at error
    severity as ['[Error] ' + str(e)] and the process exits with status 1,
    any other exception leaves [main] uncaught. *)
Theorem dispatcher_fail_fast (t : tree) (parser : A) (cwd : string) (p : proc)
    (before after : list C) (cls : C) (e : exn) (s1 s2 : vars) :
  command_classes t (parser_commands X parser) = Ok (Some (before ++ cls :: after)) →
  run_classes X cwd parser t before p = Next s1 →
  main_body X cwd parser t cls s1 = Throw e s2 →
  run_classes X cwd parser t (before ++ cls :: after) p = Throw e s2
  ∧ main X t parser cwd p
    = match e with
      | GoogkitError msg =>
          (SysExit 1, logging_error ("[Error] " +:+ msg) (mv_proc s2))
      | _ => (Uncaught e, mv_proc s2)
      end
  ∧ ∀ msg, e = GoogkitError msg →
      exit_status (main X t parser cwd p).1 = 1
      ∧ errlog (main X t parser cwd p).2 = errlog (mv_proc s2) ++ ["[Error] " +:+ msg]
      ∧ trace (main X t parser cwd p).2 = trace (mv_proc s2)
      ∧ world (main X t parser cwd p).2 = world (mv_proc s2).
Proof.
  intros Hclasses Hbefore Hcls.
  assert (run_classes X cwd parser t (before ++ cls :: after) p = Throw e s2)
    as Hloop.
  { unfold run_classes in *.
    by rewrite main_loop_app, Hbefore, for_each_cons, Hcls. }
  assert (main X t parser cwd p
          = match e with
            | GoogkitError msg =>
                (SysExit 1, logging_error ("[Error] " +:+ msg) (mv_proc s2))
            | _ => (Uncaught e, mv_proc s2)
            end) as Hmain.
  { unfold main. rewrite (resolved_not_version t parser _ Hclasses).
    rewrite Hclasses, Hloop. by destruct e. }
  split; [done|]. split; [done|].
  intros msg ->. by rewrite Hmain.
Qed.

(** X20: when resolution misses and the branch reached, if any, does not
    have the empty name as a key, [main] exits with status 0 and logs no
    error.  Unless the version option ended it before resolution (no
    command tokens and [--version], where it prints the version), it
    prints the usage line of the longest prefix of the tokens that names a
    node of the tree, then the names below that node that are not
    internal, in ascending order (none below a leaf). *)
Theorem resolution_miss_prints_help (t : tree) (parser : A) (cwd : string)
    (p : proc) :
  (∀ prefix d, right_commands t (parser_commands X parser) = Ok prefix →
               lookup_path t prefix = Some (Branch d) → d !! "" = None) →
  command_classes t (parser_commands X parser) = Ok None →
  ∃ prefix names,
    right_commands t (parser_commands X parser) = Ok prefix
    ∧ prefix `prefix_of` parser_commands X parser
    ∧ is_Some (lookup_path t prefix)
    ∧ (∀ q, q `prefix_of` parser_commands X parser →
            is_Some (lookup_path t q) → q `prefix_of` prefix)
    ∧ available_commands t prefix = Ok names
    ∧ next_level_names t prefix names
    ∧ main X t parser cwd p
      = (SysExit 0,
         if bool_decide (length (parser_commands X parser) = 0)
              && parser_option X parser "--version"
         then print_version p
         else Process (world p)
                (stdout p ++ usage_line prefix :: "" :: "Available commands:"
                   :: map (λ name, "    " +:+ name) names)
                (errlog p) (trace p) (next_env p))
    ∧ exit_status (main X t parser cwd p).1 = 0
    ∧ errlog (main X t parser cwd p).2 = errlog p.
Proof.
  intros Hkeys Hmiss.
  destruct (available_commands_resolved t (parser_commands X parser))
    as (names & Hnames & Hlevel).
  { intros d. apply Hkeys, right_commands_resolved. }
  exists (resolved t (parser_commands X parser)), names.
  split; [apply right_commands_resolved|].
  split; [apply resolved_prefix|].
  split; [apply resolved_lookup|].
  split; [intros q; apply resolved_longest|].
  split; [done|]. split; [done|].
  assert (main X t parser cwd p
          = (SysExit 0,
             if bool_decide (length (parser_commands X parser) = 0)
                  && parser_option X parser "--version"
             then print_version p
             else Process (world p)
                    (stdout p
                       ++ usage_line (resolved t (parser_commands X parser))
                       :: "" :: "Available commands:"
                       :: map (λ name, "    " +:+ name) names)
                    (errlog p) (trace p) (next_env p))) as Hmain.
  { unfold main. destruct (_ && _); [done|]. rewrite Hmiss. unfold print_help.
    rewrite right_commands_resolved, Hnames, print_names_stdout.
    simpl. by rewrite <- !app_assoc. }
  rewrite Hmain. split; [done|]. split; [done|]. by destruct (_ && _).
Qed.

End DispatcherFacts.

(** ** [InitCommand.copy_template] *)

Section InitFacts.
Context {FS : Type}.
Variable template : string.
Variable listdir : string → FS → result (list string).
Variable copy_tree : string → string → FS → result unit * FS.

Lemma conflicted_entries_spec (dst_entries template_entries : list string)
    (name : string) :
  name ∈ conflicted_entries dst_entries template_entries
  ↔ name ∈ dst_entries ∧ name ∈ template_entries.
Proof. unfold conflicted_entries. set_solver. Qed.

(** C10: when the destination and the template have an entry name in
    common, [copy_template] raises a GoogkitError that names exactly the
    common entries, once each, and leaves the file system as it was:
    [copy_tree] is not reached.  Without a common name it is the call of
    [copy_tree]. *)
Theorem copy_template_conflict (dst_dir : string) (fs : FS)
    (dst_entries template_entries : list string) :
  listdir dst_dir fs = Ok dst_entries →
  listdir template fs = Ok template_entries →
  (∀ name, name ∈ dst_entries → name ∈ template_entries →
     ∃ names,
       copy_template template listdir copy_tree dst_dir fs
       = (Raise (GoogkitError ("Conflicted files: " +:+ String.concat ", " names)), fs)
       ∧ NoDup names
       ∧ ∀ x, x ∈ names ↔ x ∈ dst_entries ∧ x ∈ template_entries)
  ∧ ((∀ name, name ∈ dst_entries → name ∉ template_entries) →
     copy_template template listdir copy_tree dst_dir fs
     = copy_tree template dst_dir fs).
Proof.
  intros Hdst Htemplate. unfold copy_template. rewrite Hdst, Htemplate.
  split.
  - intros name Hin_dst Hin_template.
    exists (elements (conflicted_entries dst_entries template_entries)).
    split; [|split].
    + destruct (decide _) as [Hne|Hempty]; [done|]. exfalso.
      apply dec_stable in Hempty.
      assert (name ∈ conflicted_entries dst_entries template_entries) as Hin
        by by apply conflicted_entries_spec.
      rewrite Hempty in Hin. by apply not_elem_of_empty in Hin.
    + apply NoDup_elements.
    + intros x. rewrite elem_of_elements. apply conflicted_entries_spec.
  - intros Hdisjoint. destruct (decide _) as [Hne|Hempty]; [|done].
    exfalso. apply Hne.
    apply set_eq. intros x. rewrite conflicted_entries_spec.
    split; [intros [H1 H2]; by destruct (Hdisjoint x H1)|set_solver].
Qed.

End InitFacts.

(** ** The properties at concrete inputs *)

Lemma environment_per_class_witness :
  (∃ s T,
     flow_state (run_classes (example_collaborators nothing_fails) "/project"
                   (["all"], false) example_tree
                   [InitCommand; ApplyConfigCommand; UpdateDepsCommand]
                   example_process) = Some s
     ∧ trace (mv_proc s) = trace example_process ++ T
     ∧ loads T ≤ 1
     ∧ NoDup (instance_environments T)
     ∧ T = [NewEnvironment 0 false; Construct InitCommand 0; Run InitCommand 0;
            LoadConfig;
            NewEnvironment 1 true; Construct ApplyConfigCommand 1;
            Run ApplyConfigCommand 1;
            NewEnvironment 2 true; Construct UpdateDepsCommand 2;
            Run UpdateDepsCommand 2]
     ∧ ∃ s1 s2 T2,
         run_classes (example_collaborators nothing_fails) "/project"
           (["all"], false) example_tree [InitCommand] example_process = Next s1
         ∧ mv_config s1 = None
         ∧ flow_state (main_body (example_collaborators nothing_fails) "/project"
                         (["all"], false) example_tree ApplyConfigCommand s1)
           = Some s2
         ∧ trace (mv_proc s2) = trace (mv_proc s1) ++ LoadConfig :: T2)
  ∧ (∃ s T,
       flow_state (run_classes (example_collaborators nothing_fails) "/project"
                     (["init"], false) example_tree [InitCommand]
                     example_process) = Some s
       ∧ trace (mv_proc s) = trace example_process ++ T
       ∧ loads T = 0 ∧ mv_config s = None).
Proof.
  split.
  - destruct (environment_per_class (example_collaborators nothing_fails)
                example_tree (["all"], false) "/project" example_process
                [InitCommand; ApplyConfigCommand; UpdateDepsCommand])
      as (s & T & Hs & _ & Htrace & Hloads & _ & _ & _ & Hdistinct & _ & _
          & Hlazy & Hturns & _).
    exists s, T. split; [exact Hs|]. split; [exact Htrace|].
    split; [exact Hloads|]. split; [exact Hdistinct|].
    split.
    { destruct Hturns as [[_ ->]|(e & done & Hthrow & _)]; [reflexivity|].
      vm_compute in Hthrow. discriminate Hthrow. }
    edestruct (Hlazy [InitCommand] ApplyConfigCommand [UpdateDepsCommand])
      as (Hnone & s2 & T2 & Hs2 & Htrace2);
      [reflexivity|by repeat constructor|reflexivity|reflexivity|].
    eexists _, s2, T2. split; [reflexivity|]. split; [exact Hnone|].
    split; [exact Hs2|exact Htrace2].
  - destruct (environment_per_class (example_collaborators nothing_fails)
                example_tree (["init"], false) "/project" example_process
                [InitCommand])
      as (s & T & Hs & _ & Htrace & _ & Hnever & _).
    exists s, T. split; [exact Hs|]. split; [exact Htrace|].
    apply Hnever. by repeat constructor.
Defined.

(** C2, as stated, fails: the run of ["ready"] resolves to two classes and
    constructs two environments, one for each instance. *)
Lemma single_shared_environment_counterexample :
  command_classes example_tree ["ready"]
    = Ok (Some [ApplyConfigCommand; UpdateDepsCommand])
  ∧ (example_main nothing_fails ["ready"]).1 = Returned
  ∧ ¬ single_shared_environment (trace (example_main nothing_fails ["ready"]).2).
Proof.
  split; [reflexivity|]. split; [reflexivity|].
  intros (id & Hids & _). vm_compute in Hids. discriminate.
Qed.

Lemma sequence_fail_fast_witness :
  run_members "No config file found." (example_members update_deps_fails)
    (example_env None) (CmdState [] [])
  = (Raise (GoogkitError "update_deps failed"),
     CmdState ["download"; "update_deps"]
       [Instantiated "download" 7; RunInternal "download" 7;
        Instantiated "update_deps" 7; RunInternal "update_deps" 7]).
Proof.
  destruct (sequence_fail_fast (W := list string) "No config file found."
              "setup" false (example_env None))
    as (_ & _ & Hfail & _).
  apply (Hfail [example_member update_deps_fails DownloadCommand]
               (example_member update_deps_fails UpdateDepsCommand)
               [example_member update_deps_fails ApplyConfigCommand]
               (CmdState [] [])
               (CmdState ["download"]
                  [Instantiated "download" 7; RunInternal "download" 7]));
    reflexivity.
Defined.

Lemma dispatcher_fail_fast_witness :
  (example_main apply_config_fails ["all"]).1 = SysExit 1
  ∧ errlog (example_main apply_config_fails ["all"]).2
    = ["[Error] apply_config failed"]
  ∧ trace (example_main apply_config_fails ["all"]).2
    = [NewEnvironment 0 false; Construct InitCommand 0; Run InitCommand 0;
       LoadConfig; NewEnvironment 1 true;
       Construct ApplyConfigCommand 1; Run ApplyConfigCommand 1]
  ∧ world (example_main apply_config_fails ["all"]).2 = ["init"].
Proof.
  edestruct (dispatcher_fail_fast (example_collaborators apply_config_fails)
               example_tree (["all"], false) "/project" example_process
               [InitCommand] [UpdateDepsCommand] ApplyConfigCommand)
    as (_ & Hmain & _);
    [reflexivity|reflexivity|reflexivity|].
  unfold example_main. rewrite Hmain. repeat split; reflexivity.
Defined.

Lemma run_checks_config_witness :
  run "No config file found." example_needy (example_env None) (CmdState [] [])
    = (Raise (GoogkitError "No config file found."), CmdState [] [])
  ∧ run "No config file found." example_needy (example_env (Some ()))
      (CmdState [] [])
    = run_internal "No config file found." example_needy (example_env (Some ()))
        (CmdState [] []).
Proof.
  split.
  - destruct (run_checks_config "No config file found." example_needy
                (example_env None) (CmdState [] [])) as [Hraises _].
    apply Hraises; reflexivity.
  - destruct (run_checks_config "No config file found." example_needy
                (example_env (Some ())) (CmdState [] [])) as [_ Hruns].
    apply Hruns. right. discriminate.
Defined.

Lemma register_last_write_wins_witness :
  ∃ t1 t2,
    register DEFAULT_TREE ["config"; "x"] [InitCommand] = Ok t1
    ∧ register t1 ["config"; "x"] [BuildCommand] = Ok t2
    ∧ command_classes t2 ["config"; "x"] = Ok (Some [BuildCommand])
    ∧ (∃ m, lookup_path t1 ["config"] = Some (Branch m)
            ∧ ∀ j, is_Some (m !! j) ↔ j = "x")
    ∧ t1 !! "build" = DEFAULT_TREE !! "build".
Proof.
  destruct (register_last_write_wins DEFAULT_TREE ["config"] "x"
              [InitCommand] [BuildCommand])
    as (t1 & t2 & H1 & H2 & _ & H4 & _ & Hfresh & Hother).
  exists t1, t2. split; [exact H1|]. split; [exact H2|]. split; [exact H4|].
  split.
  - apply (Hfresh ["config"] "x" []); [discriminate|reflexivity].
  - apply Hother. discriminate.
Defined.

Lemma resolution_miss_prints_help_witness :
  example_main nothing_fails ["config"; "bogus"]
  = (SysExit 0,
     Process []
       ["Usage: googkit config <command>"; ""; "Available commands:"; "    apply"]
       [] [] 0).
Proof.
  destruct (resolution_miss_prints_help (example_collaborators nothing_fails)
              example_tree (["config"; "bogus"], false) "/project" example_process)
    as (prefix & names & Hprefix & _ & _ & _ & Hnames & _ & Hmain & _).
  - intros prefix d Hprefix Hnode.
    vm_compute in Hprefix. injection Hprefix as <-.
    vm_compute in Hnode. injection Hnode as <-. reflexivity.
  - reflexivity.
  - unfold example_main. rewrite Hmain.
    vm_compute in Hprefix. injection Hprefix as <-.
    vm_compute in Hnames. injection Hnames as <-. reflexivity.
Defined.


Lemma copy_template_conflict_witness :
  ∃ names,
    copy_template "/template" example_listdir example_copy_tree "/project" example_fs
    = (Raise (GoogkitError ("Conflicted files: " +:+ String.concat ", " names)),
       example_fs)
    ∧ NoDup names
    ∧ ∀ x, x ∈ names ↔ x ∈ ["README"; "js"] ∧ x ∈ ["index.html"; "js"; "googkit.cfg"].
Proof.
  destruct (copy_template_conflict "/template" example_listdir example_copy_tree
              "/project" example_fs ["README"; "js"]
              ["index.html"; "js"; "googkit.cfg"] eq_refl eq_refl)
    as [Hconflict _].
  apply (Hconflict "js"); [by apply list_elem_of_further, list_elem_of_here|].
  by apply list_elem_of_further, list_elem_of_here.
Defined.

(** * Further properties of the code *)

(** ** The command tree *)

Section CommandTreeMore.
Context {C : Type}.

Abbreviation tree := (gmap string (node C)).

Lemma resolved_idempotent (d : tree) (args : list string) :
  resolved d (resolved d args) = resolved d args.
Proof.
  revert d. induction args as [|arg rest IH]; intros d; simpl; [done|].
  destruct (d !! arg) as [[l|d']|] eqn:Hd; simpl; rewrite ?Hd; [done| |done].
  by rewrite IH.
Qed.

Lemma resolved_leaf (d : tree) (args : list string) (l : list C) :
  lookup_path d args = Some (Leaf l) → resolved d args = args.
Proof.
  revert d. induction args as [|arg rest IH]; intros d; simpl; [done|].
  destruct (d !! arg) as [[l'|d']|]; [by destruct rest| |done].
  intros Hrest. by rewrite (IH _ Hrest).
Qed.

Lemma public_commands_empty_name (names : list string) :
  "" ∈ names → public_commands names = Raise IndexError.
Proof.
  induction names as [|n names IH]; intros Hin; [by apply elem_of_nil in Hin|].
  simpl. destruct n as [|c n]; [done|]. simpl.
  apply elem_of_cons in Hin as [Heq|Hin]; [done|]. by rewrite (IH Hin).
Qed.

Lemma walk_register_path_only (init : list string) (final : string)
    (L L' : list C) (q : list string) :
  walk (register_path init final L ∅) q = Some L' →
  q = init ++ [final] ∧ L' = L.
Proof.
  revert q. induction init as [|n init IH]; intros [|k q]; simpl; try done.
  - destruct (decide (final = k)) as [->|Hne].
    + rewrite lookup_insert_eq. destruct q; [|done]. by intros [= ->].
    + by rewrite lookup_insert_ne, lookup_empty.
  - destruct (decide (n = k)) as [->|Hne].
    + rewrite lookup_insert_eq. intros [-> ->]%IH. done.
    + by rewrite lookup_insert_ne, lookup_empty.
Qed.

(** X1: [right_commands] never raises and returns the longest prefix of
    the tokens that names a node of the tree. *)
Theorem right_commands_longest_prefix (t : tree) (args : list string) :
  ∃ prefix,
    right_commands t args = Ok prefix
    ∧ prefix `prefix_of` args
    ∧ is_Some (lookup_path t prefix)
    ∧ ∀ q, q `prefix_of` args → is_Some (lookup_path t q) → q `prefix_of` prefix.
Proof.
  exists (resolved t args). split; [apply right_commands_resolved|].
  split; [apply resolved_prefix|]. split; [apply resolved_lookup|].
  intros q. apply resolved_longest.
Qed.

(** X2: [right_commands] is idempotent: applied to its own result it
    returns that result. *)
Theorem right_commands_idempotent (t : tree) (args : list string) :
  ∃ prefix, right_commands t args = Ok prefix
            ∧ right_commands t prefix = Ok prefix.
Proof.
  exists (resolved t args).
  by rewrite !right_commands_resolved, resolved_idempotent.
Qed.

(** X3: when [command_classes] resolves the tokens, [right_commands]
    returns all of them and [available_commands] lists nothing for
    them. *)
Theorem resolved_tokens_are_right (t : tree) (args : list string) (L : list C) :
  command_classes t args = Ok (Some L) →
  right_commands t args = Ok args ∧ available_commands t args = Ok [].
Proof.
  intros Hleaf%command_classes_Some. split.
  - by rewrite right_commands_resolved, (resolved_leaf t args L).
  - rewrite available_commands_listing. by eapply listing_leaf.
Qed.

(** X4: no resolving token sequence is a proper prefix of another. *)
Theorem command_classes_prefix_free (t : tree) (P rest : list string)
    (L L' : list C) :
  command_classes t P = Ok (Some L) →
  command_classes t (P ++ rest) = Ok (Some L') →
  rest = [] ∧ L' = L.
Proof.
  intros HP%command_classes_Some HPrest%command_classes_Some.
  destruct rest as [|r rest].
  - rewrite app_nil_r in HPrest. split; [done|]. congruence.
  - by rewrite (lookup_path_leaf_app t P (r :: rest) L) in HPrest.
Qed.

(** X5: for tokens that end in a branch without the empty name as a key,
    [available_commands] returns the names of the children of that branch
    that do not start with an underscore, each once, in ascending
    order. *)
Theorem available_commands_of_branch (t d : tree) (args : list string) :
  lookup_path t args = Some (Branch d) →
  d !! "" = None →
  ∃ names,
    available_commands t args = Ok names
    ∧ Sorted str_le names
    ∧ NoDup names
    ∧ ∀ k, k ∈ names ↔ is_Some (d !! k) ∧ internal_name k = false.
Proof.
  intros Hbranch Hempty.
  rewrite available_commands_listing, (listing_branch t d args Hbranch).
  by apply listing_here.
Qed.

(** X6: when the branch the tokens end in has the empty name as a key,
    [available_commands] raises IndexError. *)
Theorem available_commands_empty_name (t d : tree) (args : list string) :
  lookup_path t args = Some (Branch d) →
  is_Some (d !! "") →
  available_commands t args = Raise IndexError.
Proof.
  intros Hbranch Hempty.
  rewrite available_commands_listing, (listing_branch t d args Hbranch).
  simpl. rewrite public_commands_empty_name; [done|]. by apply elem_of_keys.
Qed.

(** X7: [available_commands] returns the empty list when the tokens end
    at a leaf and when they meet a token that is not a key of the branch
    reached, whatever follows it. *)
Theorem available_commands_nothing (t : tree) :
  (∀ args l, lookup_path t args = Some (Leaf l) →
     available_commands t args = Ok [])
  ∧ (∀ args d unknown rest,
       lookup_path t args = Some (Branch d) → d !! unknown = None →
       available_commands t (args ++ unknown :: rest) = Ok []).
Proof.
  split.
  - intros args l Hleaf. rewrite available_commands_listing.
    by eapply listing_leaf.
  - intros args d unknown rest Hbranch Hunknown.
    rewrite available_commands_listing. by eapply listing_unknown.
Qed.

(** X8: whenever tokens remain after a leaf was reached,
    [available_commands] raises AttributeError. *)
Theorem available_commands_tokens_after_leaf (t : tree) (args rest : list string)
    (l : list C) :
  lookup_path t args = Some (Leaf l) → rest ≠ [] →
  available_commands t (args ++ rest) = Raise AttributeError.
Proof.
  intros Hleaf Hrest. rewrite available_commands_listing.
  by eapply listing_past_leaf.
Qed.

(** X9: after a registration, the registered path is the only token
    sequence starting with its first token that resolves: whatever was
    registered below that token before is gone. *)
Theorem register_replaces_first_token (t : tree) (init : list string)
    (final : string) (L : list C) :
  ∃ t', register t (init ++ [final]) L = Ok t'
        ∧ ∀ q L', head q = head (init ++ [final]) →
                  command_classes t' q = Ok (Some L') →
                  q = init ++ [final] ∧ L' = L.
Proof.
  exists (register_path init final L t). split; [apply register_nonempty|].
  intros q L' Hhead. rewrite command_classes_walk. intros [= Hwalk].
  destruct init as [|n init]; destruct q as [|k q]; simpl in *; try done.
  - injection Hhead as ->. rewrite lookup_insert_eq in Hwalk.
    destruct q; [|done]. by injection Hwalk as ->.
  - injection Hhead as ->. rewrite lookup_insert_eq in Hwalk.
    by apply walk_register_path_only in Hwalk as [-> ->].
Qed.

(** X10: a registration does not change how token sequences with another
    first token resolve. *)
Theorem register_keeps_other_tokens (t : tree) (init : list string)
    (final : string) (L : list C) :
  ∃ t', register t (init ++ [final]) L = Ok t'
        ∧ ∀ q, head q ≠ head (init ++ [final]) →
               command_classes t' q = command_classes t q
               ∧ right_commands t' q = right_commands t q.
Proof.
  exists (register_path init final L t). split; [apply register_nonempty|].
  intros q Hhead.
  rewrite !command_classes_walk, !right_commands_resolved.
  destruct q as [|k q]; [done|]. simpl.
  rewrite register_path_other; [done|]. simpl in Hhead. congruence.
Qed.

End CommandTreeMore.

(** ** Runs of [main] *)

Section DispatcherMore.
Context {C A Cfg W : Type}.
Variable X : collaborators C A Cfg W.

Abbreviation tree := (gmap string (node C)).
Abbreviation proc := (process C W).
Abbreviation vars := (@main_vars C Cfg W).

(** What one turn of the loop adds: nothing printed or logged, and the
    class constructed and run, unless the config could not be loaded. *)
Lemma main_body_order (cwd : string) (parser : A) (t : tree) (cls : C) (s : vars) :
  ∃ s' T,
    trace (mv_proc s') = trace (mv_proc s) ++ T
    ∧ stdout (mv_proc s') = stdout (mv_proc s)
    ∧ errlog (mv_proc s') = errlog (mv_proc s)
    ∧ run_order T = constructed_classes T
    ∧ ((main_body X cwd parser t cls s = Next s' ∧ constructed_classes T = [cls])
       ∨ (∃ e, main_body X cwd parser t cls s = Throw e s'
               ∧ (constructed_classes T = [] ∨ constructed_classes T = [cls]))).
Proof.
  unfold main_body, chain, when, load_config, construct_and_run, new_environment.
  destruct (is_absent (mv_config s) && needs_config X cls); simpl.
  - destruct (project_root X cwd _) as [root|e]; simpl.
    2: { eexists _, [LoadConfig].
         split_and!; revgoals;
           [right; eexists; split; [done|by left]|done..]. }
    destruct (chdir X root _) as [w|e]; simpl.
    2: { eexists _, [LoadConfig].
         split_and!; revgoals;
           [right; eexists; split; [done|by left]|done..]. }
    destruct (find_config X cwd w) as [config|e]; simpl.
    2: { eexists _, [LoadConfig].
         split_and!; revgoals;
           [right; eexists; split; [done|by left]|done..]. }
    destruct (run_command X cls _ _) as [[[]|e] w'].
    + eexists _, [LoadConfig; NewEnvironment (next_env (mv_proc s)) true;
                  Construct cls (next_env (mv_proc s));
                  Run cls (next_env (mv_proc s))].
      split_and!; revgoals;
        [by left|done..|simpl; by rewrite <- !app_assoc].
    + eexists _, [LoadConfig; NewEnvironment (next_env (mv_proc s)) true;
                  Construct cls (next_env (mv_proc s));
                  Run cls (next_env (mv_proc s))].
      split_and!; revgoals;
        [right; eexists; split; [done|by right]|done..
        |simpl; by rewrite <- !app_assoc].
  - destruct (run_command X cls _ _) as [[[]|e] w'].
    + eexists _, [NewEnvironment (next_env (mv_proc s))
                    (negb (is_absent (mv_config s)));
                  Construct cls (next_env (mv_proc s));
                  Run cls (next_env (mv_proc s))].
      split_and!; revgoals;
        [by left|done..|simpl; by rewrite <- !app_assoc].
    + eexists _, [NewEnvironment (next_env (mv_proc s))
                    (negb (is_absent (mv_config s)));
                  Construct cls (next_env (mv_proc s));
                  Run cls (next_env (mv_proc s))].
      split_and!; revgoals;
        [right; eexists; split; [done|by right]|done..
        |simpl; by rewrite <- !app_assoc].
Qed.

Lemma constructed_classes_app (T1 T2 : list (event C)) :
  constructed_classes (T1 ++ T2) = constructed_classes T1 ++ constructed_classes T2.
Proof. apply omap_app. Qed.

Lemma run_order_app (T1 T2 : list (event C)) :
  run_order (T1 ++ T2) = run_order T1 ++ run_order T2.
Proof. apply omap_app. Qed.

Lemma main_loop_order (cwd : string) (parser : A) (t : tree)
    (classes : list C) (s : vars) :
  ∃ s' T,
    trace (mv_proc s') = trace (mv_proc s) ++ T
    ∧ stdout (mv_proc s') = stdout (mv_proc s)
    ∧ errlog (mv_proc s') = errlog (mv_proc s)
    ∧ run_order T = constructed_classes T
    ∧ ((for_each (main_body X cwd parser t) classes s = Next s'
        ∧ constructed_classes T = classes)
       ∨ (∃ e, for_each (main_body X cwd parser t) classes s = Throw e s'
               ∧ constructed_classes T `prefix_of` classes)).
Proof.
  revert s. induction classes as [|cls classes IH]; intros s.
  - exists s, []. rewrite app_nil_r. repeat split; try done. by left.
  - rewrite for_each_cons.
    destruct (main_body_order cwd parser t cls s)
      as (s1 & T1 & Htr1 & Hout1 & Herr1 & Hrun1 & Hbody).
    destruct Hbody as [[-> Hc1]|(e & -> & Hc1)].
    + destruct (IH s1) as (s2 & T2 & Htr2 & Hout2 & Herr2 & Hrun2 & Hloop).
      exists s2, (T1 ++ T2).
      rewrite Htr2, Htr1, Hout2, Herr2, app_assoc.
      rewrite run_order_app, constructed_classes_app, Hrun1, Hrun2, Hc1.
      repeat split; try done.
      destruct Hloop as [[-> ->]|(e & -> & Hpre)]; [by left|right].
      exists e. split; [done|]. by apply prefix_cons.
    + exists s1, T1. repeat split; try done. right. exists e. split; [done|].
      destruct Hc1 as [->| ->]; [apply prefix_nil|].
      by apply (prefix_cons cls [] classes), prefix_nil.
Qed.

(** X11: the classes of the resolved list are constructed and run one
    after the other in the order of the list, up to the first that raises;
    the dispatcher itself prints and logs nothing while they run, and when
    none raises [main] returns normally after the last. *)
Theorem classes_run_in_order (t : tree) (parser : A) (cwd : string) (p : proc)
    (classes : list C) :
  ∃ s T,
    flow_state (run_classes X cwd parser t classes p) = Some s
    ∧ trace (mv_proc s) = trace p ++ T
    ∧ run_order T = constructed_classes T
    ∧ constructed_classes T `prefix_of` classes
    ∧ stdout (mv_proc s) = stdout p
    ∧ errlog (mv_proc s) = errlog p
    ∧ (run_classes X cwd parser t classes p = Next s →
       constructed_classes T = classes
       ∧ (command_classes t (parser_commands X parser) = Ok (Some classes) →
          main X t parser cwd p = (Returned, mv_proc s))).
Proof.
  unfold run_classes.
  destruct (main_loop_order cwd parser t classes (MainVars None p))
    as (s & T & Htr & Hout & Herr & Hrun & Hloop).
  exists s, T. simpl in *.
  destruct Hloop as [[Hnext Hall]|(e & Hthrow & Hpre)].
  - rewrite Hnext. split_and!; try done; [by rewrite Hall|].
    intros _. split; [done|].
    intros Hclasses. unfold main, run_classes.
    by rewrite (resolved_not_version X t parser _ Hclasses), Hclasses, Hnext.
  - rewrite Hthrow. split_and!; done.
Qed.

(** X12: with no command tokens and the version option, [main] prints
    the version and exits with status 0 whatever the tree holds; with
    command tokens the version option changes nothing. *)
Theorem version_option (t : tree) (parser : A) (cwd : string) (p : proc) :
  (parser_commands X parser = [] →
   parser_option X parser "--version" = true →
   main X t parser cwd p
   = (SysExit 0,
      Process (world p) (stdout p ++ ["googkit 0.0.0"]) (errlog p) (trace p)
              (next_env p)))
  ∧ (parser_commands X parser ≠ [] →
     main X t parser cwd p = main (without_options X) t parser cwd p).
Proof.
  split.
  - intros Hnone Hversion. unfold main. by rewrite Hnone, Hversion.
  - intros Hsome. unfold main. simpl.
    destruct (parser_commands X parser) as [|c cs] eqn:Hcs; [done|].
    by rewrite !andb_false_l.
Qed.

(** X13: when the first class of the resolved list needs a config and the
    project root cannot be found, no environment and no command is
    constructed: [main] logs the error and exits with status 1, with the
    outside world as it was. *)
Theorem config_failure_before_construction (t : tree) (parser : A)
    (cwd : string) (p : proc) (cls : C) (rest : list C) (msg : string) :
  command_classes t (parser_commands X parser) = Ok (Some (cls :: rest)) →
  needs_config X cls = true →
  project_root X cwd (world p) = Raise (GoogkitError msg) →
  main X t parser cwd p
  = (SysExit 1,
     Process (world p) (stdout p) (errlog p ++ ["[Error] " +:+ msg])
             (trace p ++ [LoadConfig]) (next_env p)).
Proof.
  intros Hclasses Hneeds Hroot. unfold main.
  rewrite (resolved_not_version X t parser _ Hclasses), Hclasses.
  unfold run_classes. rewrite for_each_cons.
  unfold main_body, chain, when, load_config. simpl.
  by rewrite Hneeds, Hroot.
Qed.

End DispatcherMore.

(** ** [googkit/lib/file.py] *)

Lemma commonprefix_extension (old_root rest : string) :
  commonprefix (old_root +:+ rest) old_root = old_root.
Proof.
  induction old_root as [|c old_root IH]; simpl; [by destruct rest|].
  by rewrite Ascii.eqb_refl, IH.
Qed.

Lemma commonprefix_self (s : string) : commonprefix s s = s.
Proof.
  induction s as [|c s IH]; simpl; [done|]. by rewrite Ascii.eqb_refl, IH.
Qed.

Lemma slice_from_append (old_root rest : string) :
  slice_from (String.length old_root) (old_root +:+ rest) = rest.
Proof. induction old_root as [|c old_root IH]; simpl; [done|apply IH]. Qed.

Lemma slice_from_succ (n : nat) (c : ascii) (rest : string) (s : string) :
  slice_from n s = String c rest → slice_from (n + 1) s = rest.
Proof.
  revert s. induction n as [|n IH]; intros s; simpl.
  - by intros ->.
  - destruct s as [|c' s]; [done|]. apply IH.
Qed.

Lemma slice_from_end (s : string) : slice_from (String.length s + 1) s = "".
Proof. induction s as [|c s IH]; simpl; [done|apply IH]. Qed.

(** X14: for a target made of the old root, one more character and a
    remainder, [_replace_root] joins the new root with the remainder: the
    character after the old root is dropped whatever it is; for the old
    root itself it joins the new root with the empty string. *)
Theorem replace_root_below_root (join : string → string → string)
    (old_root new_root rest : string) (c : ascii) :
  _replace_root join (old_root +:+ String c rest) old_root new_root
  = join new_root rest
  ∧ _replace_root join old_root old_root new_root = join new_root "".
Proof.
  unfold _replace_root. split.
  - rewrite commonprefix_extension.
    by rewrite (slice_from_succ _ c rest _ (slice_from_append _ _)).
  - by rewrite commonprefix_self, slice_from_end.
Qed.

(** *** The loop over [src_dirs] *)

Lemma list_remove_fresh (kept rest : list string) (x : string) :
  x ∉ kept → list_remove x (kept ++ x :: rest) = Ok (kept ++ rest).
Proof.
  induction kept as [|k kept IH]; intros Hfresh; simpl.
  - by rewrite bool_decide_eq_true_2.
  - apply not_elem_of_cons in Hfresh as [Hne Hfresh].
    rewrite bool_decide_eq_false_2 by done. by rewrite (IH Hfresh).
Qed.

Lemma remove_ignored_from_pruned (ignore_objs : list string) (fuel : nat) :
  ∀ kept remaining,
    NoDup (kept ++ remaining) → length remaining ≤ fuel →
    remove_ignored_from fuel (length kept) ignore_objs (kept ++ remaining)
    = Ok (kept ++ pruned ignore_objs remaining).
Proof.
  induction fuel as [|fuel IH]; intros kept remaining Hnodup Hfuel.
  - destruct remaining; [|simpl in Hfuel; lia]. simpl.
    by rewrite app_nil_r, lookup_ge_None_2.
  - destruct remaining as [|x rest].
    + simpl. destruct (_ !! _) eqn:Hlookup; [|done].
      apply lookup_lt_Some in Hlookup. rewrite app_nil_r in Hlookup. lia.
    + cbn [remove_ignored_from].
      rewrite (list_lookup_middle kept rest x) by done.
      cbn [pruned]. destruct (bool_decide (x ∈ ignore_objs)).
      * rewrite list_remove_fresh.
        2: { apply NoDup_app in Hnodup as (_ & Hdisj & _).
             intros Hin. apply (Hdisj x Hin). by left. }
        assert (NoDup (kept ++ rest)) as Hnodup'.
        { apply NoDup_app in Hnodup as (Hk & Hdisj & Hr).
          apply NoDup_app. split; [done|]. split.
          - intros y Hy Hin. apply (Hdisj y Hy). by right.
          - by apply NoDup_cons in Hr as [_ Hr]. }
        destruct rest as [|y rest'].
        -- rewrite app_nil_r in *.
           destruct fuel; simpl; by rewrite lookup_ge_None_2 by lia.
        -- replace (S (length kept)) with (length (kept ++ [y]))
             by (rewrite length_app; simpl; lia).
           replace (kept ++ y :: rest') with ((kept ++ [y]) ++ rest')
             by by rewrite <- app_assoc.
           rewrite IH.
           ++ by rewrite <- app_assoc.
           ++ by rewrite <- app_assoc.
           ++ simpl in Hfuel. lia.
      * replace (S (length kept)) with (length (kept ++ [x]))
          by (rewrite length_app; simpl; lia).
        replace (kept ++ x :: rest) with ((kept ++ [x]) ++ rest)
          by by rewrite <- app_assoc.
        rewrite IH.
        -- by rewrite <- app_assoc.
        -- by rewrite <- app_assoc.
        -- simpl in Hfuel. lia.
Qed.

Lemma remove_ignored_pruned (ignore_objs src_dirs : list string) :
  NoDup src_dirs →
  remove_ignored ignore_objs src_dirs = Ok (pruned ignore_objs src_dirs).
Proof.
  intros Hnodup. apply (remove_ignored_from_pruned ignore_objs _ [] src_dirs); done.
Qed.

Lemma pruned_facts (ignore_objs : list string) (n : nat) :
  ∀ src_dirs, length src_dirs ≤ n →
    pruned ignore_objs src_dirs `sublist_of` src_dirs
    ∧ ∀ d, d ∈ src_dirs → d ∉ ignore_objs → d ∈ pruned ignore_objs src_dirs.
Proof.
  induction n as [|n IH]; intros src_dirs Hlen.
  - destruct src_dirs; [|simpl in Hlen; lia]. split; [done|]. by intros d.
  - destruct src_dirs as [|x rest]; [split; [done|by intros d]|].
    simpl in *. destruct (bool_decide (x ∈ ignore_objs)) eqn:Hx.
    + apply bool_decide_eq_true in Hx.
      destruct rest as [|y rest']; [split; [by apply sublist_nil_l|]|].
      * intros d Hd Hnot. apply list_elem_of_singleton in Hd as ->. done.
      * destruct (IH rest') as [Hsub Hkeep]; [simpl in Hlen; lia|].
        split; [by apply sublist_cons, sublist_skip|].
        intros d Hd Hnot.
        apply elem_of_cons in Hd as [->|Hd]; [done|].
        apply elem_of_cons in Hd as [->|Hd]; [by left|].
        right. by apply Hkeep.
    + destruct (IH rest) as [Hsub Hkeep]; [lia|].
      split; [by apply sublist_skip|].
      intros d Hd Hnot. apply elem_of_cons in Hd as [->|Hd]; [by left|].
      right. by apply Hkeep.
Qed.

(** X15: on directory names without repetition the loop ends without an
    error, leaves a sublist of the names in their order, and keeps every
    name that is not ignored. *)
Theorem remove_ignored_keeps_wanted (ignore_objs src_dirs : list string) :
  NoDup src_dirs →
  ∃ kept,
    remove_ignored ignore_objs src_dirs = Ok kept
    ∧ kept `sublist_of` src_dirs
    ∧ ∀ d, d ∈ src_dirs → d ∉ ignore_objs → d ∈ kept.
Proof.
  intros Hnodup. exists (pruned ignore_objs src_dirs).
  split; [by apply remove_ignored_pruned|].
  by apply (pruned_facts ignore_objs (length src_dirs)).
Qed.

(** X16: removing a name while iterating passes over the name that
    follows it: when the first name is ignored, the second stays in
    [src_dirs] whether it is ignored or not. *)
Theorem remove_ignored_passes_over (ignore_objs rest : list string)
    (first second : string) :
  NoDup (first :: second :: rest) →
  first ∈ ignore_objs →
  ∃ kept,
    remove_ignored ignore_objs (first :: second :: rest) = Ok (second :: kept)
    ∧ remove_ignored ignore_objs rest = Ok kept.
Proof.
  intros Hnodup Hfirst. exists (pruned ignore_objs rest).
  rewrite !remove_ignored_pruned; [|by do 2 apply NoDup_cons in Hnodup as [_ Hnodup]|done].
  simpl. by rewrite bool_decide_eq_true_2.
Qed.

(** ** [BuildCommand.compile_resource] *)

Section CompileResourceFacts.
Context {FS : Type}.
Variable line_indent : string → string.
Variable read_lines : string → FS → result (list string).
Variable write_lines : string → list string → FS → result unit * FS.

Lemma cr_body_step (compiled_js_path line : string) (acc : list string)
    (previous : string) :
  cr_body line_indent compiled_js_path line (CrVars acc previous)
  = match compile_line line_indent compiled_js_path line with
    | None => Continue (CrVars acc line)
    | Some out => Next (CrVars (acc ++ [out]) out)
    end.
Proof.
  unfold cr_body, compile_line, chain, when, assign, continue_. simpl.
  destruct (found line BASE_JS); [done|]. simpl.
  destruct (found line DEPS_JS); [done|]. simpl.
  by destruct (found line REQUIRE_MAIN).
Qed.

Lemma compile_line_unmarked (compiled_js_path line : string) :
  unmarked line → compile_line line_indent compiled_js_path line = Some line.
Proof. intros (Hb & Hd & Hr). unfold compile_line. by rewrite Hb, Hd, Hr. Qed.

Lemma compile_line_replaced (compiled_js_path line : string) :
  surviving line → ¬ unmarked line →
  compile_line line_indent compiled_js_path line
  = Some (line_indent line +:+ script_line compiled_js_path).
Proof.
  intros [Hb Hd] Hu. unfold compile_line. rewrite Hb, Hd.
  destruct (found line REQUIRE_MAIN) eqn:Hr; [done|]. by destruct Hu.
Qed.

Lemma compile_line_dropped (compiled_js_path line : string) :
  ¬ surviving line → compile_line line_indent compiled_js_path line = None.
Proof.
  intros Hs. unfold compile_line.
  destruct (found line BASE_JS) eqn:Hb; [done|].
  destruct (found line DEPS_JS) eqn:Hd; [done|]. by destruct Hs.
Qed.

Lemma cr_loop (compiled_js_path : string) (input acc : list string)
    (previous : string) :
  ∃ last_line,
    for_each (cr_body line_indent compiled_js_path) input (CrVars acc previous)
    = Next (CrVars (acc ++ omap (compile_line line_indent compiled_js_path) input)
                   last_line).
Proof.
  revert acc previous. induction input as [|line input IH]; intros acc previous.
  - exists previous. simpl. by rewrite app_nil_r.
  - rewrite for_each_cons, cr_body_step. simpl.
    destruct (compile_line _ _ line) as [out|].
    + destruct (IH (acc ++ [out]) out) as [last_line ->].
      exists last_line. by rewrite <- app_assoc.
    + apply IH.
Qed.

Lemma compiled_lines_omap (compiled_js_path : string) (input : list string) :
  compiled_lines line_indent compiled_js_path input
  = omap (compile_line line_indent compiled_js_path) input.
Proof.
  unfold compiled_lines.
  by destruct (cr_loop compiled_js_path input [] "") as [last_line ->].
Qed.

(** X17: a file none of whose lines holds a marker is written back with
    the lines it had. *)
Theorem compile_resource_without_markers (path compiled_js_path : string)
    (fs : FS) (input : list string) :
  read_lines path fs = Ok input →
  Forall unmarked input →
  compile_resource line_indent read_lines write_lines path compiled_js_path fs
  = write_lines path input fs.
Proof.
  intros Hread Hunmarked. unfold compile_resource.
  rewrite Hread, compiled_lines_omap. f_equal. clear Hread.
  induction Hunmarked as [|line input (Hb & Hd & Hr) _ IH]; [done|].
  change (omap ?f (line :: input))
    with (match f line with Some y => y :: omap f input | None => omap f input end).
  unfold compile_line at 1. by rewrite Hb, Hd, Hr, IH.
Qed.

(** X18: the lines written are as many as the lines read that hold neither
    the base_js nor the deps_js marker (a line with one of them is dropped
    even if it also holds the require_main marker), and the lines without
    any marker are among them, unchanged and in their order. *)
Theorem compile_resource_lines (path compiled_js_path : string) (fs : FS)
    (input : list string) :
  read_lines path fs = Ok input →
  ∃ output,
    compile_resource line_indent read_lines write_lines path compiled_js_path fs
    = write_lines path output fs
    ∧ length output = length (filter surviving input)
    ∧ filter unmarked input `sublist_of` output.
Proof.
  intros Hread.
  exists (omap (compile_line line_indent compiled_js_path) input).
  split; [unfold compile_resource; by rewrite Hread, compiled_lines_omap|].
  clear Hread. induction input as [|line input [IHlen IHsub]]; [done|].
  change (omap ?f (line :: input))
    with (match f line with Some y => y :: omap f input | None => omap f input end).
  rewrite !filter_cons.
  destruct (decide (surviving line)) as [Hs|Hs].
  - destruct (decide (unmarked line)) as [Hu|Hu].
    + rewrite (compile_line_unmarked _ _ Hu). simpl.
      split; [by rewrite IHlen|by apply sublist_skip].
    + rewrite (compile_line_replaced compiled_js_path _ Hs Hu). simpl.
      split; [by rewrite IHlen|by apply sublist_cons].
  - rewrite (compile_line_dropped compiled_js_path _ Hs).
    rewrite decide_False; [done|]. intros (Hb & Hd & _). by apply Hs.
Qed.

End CompileResourceFacts.

(** ** The further properties at concrete inputs *)

Lemma right_commands_longest_prefix_witness :
  ∃ prefix,
    right_commands DEFAULT_TREE ["config"; "bogus"] = Ok prefix
    ∧ ["config"] `prefix_of` prefix.
Proof.
  destruct (right_commands_longest_prefix DEFAULT_TREE ["config"; "bogus"])
    as (prefix & Hprefix & _ & _ & Hlongest).
  exists prefix. split; [exact Hprefix|].
  apply Hlongest; [by exists ["bogus"]|by eexists].
Defined.

Lemma resolved_tokens_are_right_witness :
  right_commands DEFAULT_TREE ["config"; "apply"] = Ok ["config"; "apply"]
  ∧ available_commands DEFAULT_TREE ["config"; "apply"] = Ok [].
Proof.
  apply (resolved_tokens_are_right DEFAULT_TREE ["config"; "apply"]
           [ApplyConfigCommand; UpdateDepsCommand]).
  reflexivity.
Defined.

Lemma command_classes_prefix_free_witness :
  @nil string = [] ∧ [BuildCommand] = [BuildCommand].
Proof.
  apply (command_classes_prefix_free DEFAULT_TREE ["build"] []
           [BuildCommand] [BuildCommand]); reflexivity.
Defined.

Lemma available_commands_of_branch_witness :
  ∃ names,
    available_commands DEFAULT_TREE ["config"] = Ok names
    ∧ Sorted str_le names
    ∧ NoDup names
    ∧ ∀ k, k ∈ names
           ↔ is_Some (({["apply" := Leaf [ApplyConfigCommand; UpdateDepsCommand]]}
                        : gmap string (node command_id)) !! k)
             ∧ internal_name k = false.
Proof.
  apply (available_commands_of_branch DEFAULT_TREE
           {["apply" := Leaf [ApplyConfigCommand; UpdateDepsCommand]]} ["config"]);
    reflexivity.
Defined.

Lemma available_commands_empty_name_witness :
  available_commands example_tree_empty_name [] = Raise IndexError.
Proof.
  apply (available_commands_empty_name example_tree_empty_name
           example_tree_empty_name []); [reflexivity|].
  exists (Leaf [InitCommand]). reflexivity.
Defined.

Lemma available_commands_nothing_witness :
  available_commands DEFAULT_TREE ["build"] = Ok []
  ∧ available_commands DEFAULT_TREE (["config"] ++ "bogus" :: ["apply"]) = Ok [].
Proof.
  destruct (available_commands_nothing DEFAULT_TREE) as [Hleaf Hunknown].
  split.
  - apply (Hleaf ["build"] [BuildCommand]). reflexivity.
  - apply (Hunknown ["config"]
             {["apply" := Leaf [ApplyConfigCommand; UpdateDepsCommand]]});
      reflexivity.
Defined.

Lemma available_commands_tokens_after_leaf_witness :
  available_commands DEFAULT_TREE (["init"] ++ ["now"; "please"])
  = Raise AttributeError.
Proof.
  apply (available_commands_tokens_after_leaf DEFAULT_TREE ["init"]
           ["now"; "please"] [InitCommand]); [reflexivity|discriminate].
Defined.

Lemma register_replaces_first_token_witness :
  ∃ t', register DEFAULT_TREE (["config"] ++ ["x"]) [InitCommand] = Ok t'
        ∧ command_classes t' ["config"; "apply"] = Ok None.
Proof.
  destruct (register_replaces_first_token DEFAULT_TREE ["config"] "x" [InitCommand])
    as (t' & Hregister & Honly).
  exists t'. split; [exact Hregister|].
  rewrite command_classes_walk.
  destruct (walk t' ["config"; "apply"]) as [L'|] eqn:Hwalk; [|reflexivity].
  destruct (Honly ["config"; "apply"] L' eq_refl) as [Hpath _].
  - by rewrite command_classes_walk, Hwalk.
  - discriminate Hpath.
Defined.

Lemma register_keeps_other_tokens_witness :
  ∃ t', register DEFAULT_TREE (["config"] ++ ["x"]) [InitCommand] = Ok t'
        ∧ command_classes t' ["deps"; "update"] = Ok (Some [UpdateDepsCommand]).
Proof.
  destruct (register_keeps_other_tokens DEFAULT_TREE ["config"] "x" [InitCommand])
    as (t' & Hregister & Hother).
  exists t'. split; [exact Hregister|].
  destruct (Hother ["deps"; "update"]) as [Hsame _]; [discriminate|].
  rewrite Hsame. reflexivity.
Defined.

Lemma classes_run_in_order_witness :
  ∃ s T,
    run_classes (example_collaborators nothing_fails) "/project" (["all"], false)
      example_tree [InitCommand; ApplyConfigCommand; UpdateDepsCommand]
      example_process = Next s
    ∧ trace (mv_proc s) = trace example_process ++ T
    ∧ constructed_classes T = [InitCommand; ApplyConfigCommand; UpdateDepsCommand]
    ∧ run_order T = constructed_classes T
    ∧ main (example_collaborators nothing_fails) example_tree (["all"], false)
        "/project" example_process = (Returned, mv_proc s).
Proof.
  destruct (classes_run_in_order (example_collaborators nothing_fails)
              example_tree (["all"], false) "/project" example_process
              [InitCommand; ApplyConfigCommand; UpdateDepsCommand])
    as (s & T & Hs & Htrace & Horder & _ & _ & _ & Hdone).
  assert (run_classes (example_collaborators nothing_fails) "/project"
            (["all"], false) example_tree
            [InitCommand; ApplyConfigCommand; UpdateDepsCommand]
            example_process = Next s) as Hnext.
  { vm_compute in Hs. injection Hs as <-. reflexivity. }
  destruct (Hdone Hnext) as [Hall Hmain].
  exists s, T. split; [exact Hnext|]. split; [exact Htrace|].
  split; [exact Hall|]. split; [exact Horder|]. apply Hmain. reflexivity.
Defined.

Lemma version_option_witness :
  main (example_collaborators nothing_fails) example_tree ([], true)
    "/project" example_process
  = (SysExit 0, Process [] ["googkit 0.0.0"] [] [] 0)
  ∧ main (example_collaborators nothing_fails) example_tree (["init"], true)
      "/project" example_process
    = main (without_options (example_collaborators nothing_fails)) example_tree
        (["init"], true) "/project" example_process.
Proof.
  split.
  - apply (version_option (example_collaborators nothing_fails) example_tree
             ([], true) "/project" example_process); reflexivity.
  - apply (version_option (example_collaborators nothing_fails) example_tree
             (["init"], true) "/project" example_process). discriminate.
Defined.

Lemma config_failure_before_construction_witness :
  main (outside_project (example_collaborators nothing_fails)) example_tree
    (["build"], false) "/tmp" example_process
  = (SysExit 1, Process [] [] ["[Error] No project found"] [LoadConfig] 0).
Proof.
  apply (config_failure_before_construction
           (outside_project (example_collaborators nothing_fails)) example_tree
           (["build"], false) "/tmp" example_process BuildCommand []
           "No project found"); reflexivity.
Defined.

Lemma remove_ignored_keeps_wanted_witness :
  ∃ kept,
    remove_ignored ["closure"; "compiler"] ["closure"; "compiler"; "js"] = Ok kept
    ∧ kept `sublist_of` ["closure"; "compiler"; "js"]
    ∧ "js" ∈ kept.
Proof.
  destruct (remove_ignored_keeps_wanted ["closure"; "compiler"]
              ["closure"; "compiler"; "js"])
    as (kept & Hkept & Hsub & Hwanted).
  - compute_done.
  - exists kept. split; [exact Hkept|]. split; [exact Hsub|].
    apply Hwanted; compute_done.
Defined.

Lemma remove_ignored_passes_over_witness :
  ∃ kept,
    remove_ignored ["closure"; "compiler"] ["closure"; "compiler"; "js"]
    = Ok ("compiler" :: kept)
    ∧ remove_ignored ["closure"; "compiler"] ["js"] = Ok kept.
Proof.
  apply (remove_ignored_passes_over ["closure"; "compiler"] ["js"]
           "closure" "compiler"); compute_done.
Defined.

Lemma compile_resource_without_markers_witness :
  compile_resource example_line_indent example_read_lines example_write_lines
    "plain.html" "script.min.js" example_files
  = example_write_lines "plain.html" example_plain example_files.
Proof.
  apply (compile_resource_without_markers example_line_indent example_read_lines
           example_write_lines "plain.html" "script.min.js" example_files
           example_plain); [reflexivity|].
  repeat constructor.
Defined.

Lemma compile_resource_lines_witness :
  ∃ output,
    compile_resource example_line_indent example_read_lines example_write_lines
      "index.html" "script.min.js" example_files
    = example_write_lines "index.html" output example_files
    ∧ length output = length (filter surviving example_html)
    ∧ filter unmarked example_html `sublist_of` output.
Proof.
  apply (compile_resource_lines example_line_indent example_read_lines
           example_write_lines "index.html" "script.min.js" example_files
           example_html).
  reflexivity.
Defined.

(** ** The loop over [src_dirs], on any list *)

Lemma list_remove_present (x : string) (l : list string) :
  x ∈ l →
  ∃ l', list_remove x l = Ok l' ∧ length l = S (length l') ∧ l' `sublist_of` l.
Proof.
  induction l as [|y l IH]; intros Hin; [by apply elem_of_nil in Hin|].
  simpl. case_bool_decide as Hxy.
  - exists l. split; [done|]. split; [done|]. by apply sublist_cons.
  - apply elem_of_cons in Hin as [->|Hin]; [done|].
    destruct (IH Hin) as (l' & -> & Hlen & Hsub).
    exists (y :: l'). split; [done|]. split; [simpl; lia|]. by apply sublist_skip.
Qed.

Lemma remove_ignored_from_ends (ignore_objs : list string) (fuel : nat) :
  ∀ i src_dirs,
    length src_dirs ≤ fuel + i →
    ∃ kept, remove_ignored_from fuel i ignore_objs src_dirs = Ok kept
            ∧ kept `sublist_of` src_dirs.
Proof.
  induction fuel as [|fuel IH]; intros i src_dirs Hfuel.
  - simpl. destruct (src_dirs !! i) eqn:Hlookup; [|by exists src_dirs].
    apply lookup_lt_Some in Hlookup. lia.
  - cbn [remove_ignored_from].
    destruct (src_dirs !! i) as [src_dir|] eqn:Hlookup; [|by exists src_dirs].
    destruct (bool_decide (src_dir ∈ ignore_objs)).
    + destruct (list_remove_present src_dir src_dirs)
        as (src_dirs' & -> & Hlen & Hsub); [by eapply list_elem_of_lookup_2|].
      destruct (IH (S i) src_dirs') as (kept & -> & Hkept); [lia|].
      exists kept. split; [done|]. by etrans.
    + apply IH. lia.
Qed.

(** X19: on any list of names, repeated or not, the loop ends without an
    error (every [remove] finds its name, and the positions run out
    before the list does) and leaves a sublist of the names. *)
Theorem remove_ignored_ends (ignore_objs src_dirs : list string) :
  ∃ kept, remove_ignored ignore_objs src_dirs = Ok kept
          ∧ kept `sublist_of` src_dirs.
Proof. apply remove_ignored_from_ends. lia. Qed.
